(** * Pitch-Lens chatbot: the non-rendering logic of [chatbot.tsx]

    A shallow embedding of [src/Frontend/src/components/chatbot.tsx]:
    the email harvest ([collectEmails], [founderEmails]), identity
    resolution ([coerce], [sanitizeProductName], [productName],
    [displayName]), the mail link ([gmailParams], [gmailLink]), the text
    formatter ([renderInlineSegments], [renderMessageContent]) and the
    conversation handlers ([getInitialBotMessage], [handleSendMessage]).

    JavaScript strings are sequences of UTF-16 code units, modelled as
    [list N]; the regular expressions of the file are values of a small
    backtracking matcher that follows the language's matching order. *)

From Stdlib Require Import NArith Ascii Lia.
From stdpp Require Import base option list strings gmap.

Set Warnings "-register-all".

Local Open Scope N_scope.

(** ** Strings *)

Abbreviation jsstring := (list N).

(** An ASCII literal of the source as code units. *)
Fixpoint js (s : string) : jsstring :=
  match s with
  | EmptyString => []
  | String c s' => N_of_ascii c :: js s'
  end.

Module Char.
Definition tab : N := 9.
Definition lf : N := 10.
Definition cr : N := 13.
Definition space : N := 32.
Definition percent : N := 37.
Definition amp : N := 38.
Definition star : N := 42.
Definition plus : N := 43.
Definition comma : N := 44.
Definition minus : N := 45.
Definition dot : N := 46.
Definition equals : N := 61.
Definition at_sign : N := 64.
Definition underscore : N := 95.
(** U+2022 BULLET, one code unit. *)
Definition bullet : N := 8226.
End Char.

Definition between (lo hi c : N) : bool := (lo <=? c) && (c <=? hi).

Definition is_upper (c : N) : bool := between 65 90 c.
Definition is_lower (c : N) : bool := between 97 122 c.
Definition is_digit (c : N) : bool := between 48 57 c.

(** LineTerminator: LF, CR, U+2028, U+2029. *)
Definition is_line_terminator (c : N) : bool :=
  (c =? 10) || (c =? 13) || (c =? 8232) || (c =? 8233).

(** WhiteSpace and LineTerminator code units: what [String.prototype.trim]
    strips and what [\s] matches. *)
Definition is_ws (c : N) : bool :=
  (c =? 9) || (c =? 11) || (c =? 12) || (c =? 32) || (c =? 160)
  || (c =? 5760) || between 8192 8202 c || (c =? 8239) || (c =? 8287)
  || (c =? 12288) || (c =? 65279) || is_line_terminator c.

Fixpoint trimStart (s : jsstring) : jsstring :=
  match s with
  | [] => []
  | c :: s' => if is_ws c then trimStart s' else s
  end.

Definition trimEnd (s : jsstring) : jsstring :=
  reverse (trimStart (reverse s)).

(** [String.prototype.trim]. *)
Definition trim (s : jsstring) : jsstring := trimEnd (trimStart s).

(** [String.prototype.toLowerCase] on the Basic Latin block: [A-Z] go to
    [a-z], every other code unit of that block is unchanged. Code units
    from 128 on are left as they are; the only strings the modelled code
    lowers are matches of [EMAIL_REGEX], which lie in that block (lemmas
    [emails_in_shape] and [email_shape_ascii] below). *)
Definition lower_unit (c : N) : N := if is_upper c then c + 32 else c.
Definition toLowerCase (s : jsstring) : jsstring := lower_unit <$> s.

(** [Array.prototype.join]. *)
Fixpoint join (sep : jsstring) (l : list jsstring) : jsstring :=
  match l with
  | [] => []
  | [x] => x
  | x :: l' => x ++ sep ++ join sep l'
  end.

(** ** Regular expressions

    Every pattern of the file is a sequence of quantified character
    classes, so a pattern is a list of atoms. Matching follows the
    language: a greedy atom tries the longest repetition first and gives
    characters back one at a time, a lazy one tries the shortest first. *)

Local Close Scope N_scope.

Module Regex.

Inductive greed := Greedy | Lazy.

Record atom := Atom {
  cls : N → bool;
  qmin : nat;
  qmax : option nat;
  qmode : greed
}.

Definition regex := list atom.

(** Length of the longest prefix of [s] inside the class [p]. *)
Fixpoint run (p : N → bool) (s : jsstring) : nat :=
  match s with
  | [] => 0
  | c :: s' => if p c then S (run p s') else 0
  end.

(** The repetition counts an atom tries at the head of [s], in the order
    it tries them. *)
Definition counts (a : atom) (s : jsstring) : list nat :=
  let avail := run (cls a) s in
  let k := match qmax a with Some h => Nat.min h avail | None => avail end in
  let up := seq (qmin a) (S k - qmin a) in
  match qmode a with
  | Greedy => reverse up
  | Lazy => up
  end.

(** Try the counts in order; [k] matches the rest of the pattern. *)
Fixpoint try_counts (k : jsstring → option nat) (s : jsstring)
    (js : list nat) : option nat :=
  match js with
  | [] => None
  | j :: js' =>
      match k (drop j s) with
      | Some m => Some (j + m)%nat
      | None => try_counts k s js'
      end
  end.

(** Match the pattern at the head of [s]: the length of the match. *)
Fixpoint match_here (r : regex) (s : jsstring) : option nat :=
  match r with
  | [] => Some 0
  | a :: r' => try_counts (match_here r') s (counts a s)
  end.

(** The successive matches of a global pattern, left to right, each
    search resuming where the previous match ended (one further when
    the match was empty). [skip] counts the code units still inside the
    previous match. *)
Fixpoint match_all_go (r : regex) (s : jsstring) (skip : nat)
    : list jsstring :=
  match skip with
  | S k =>
      match s with
      | [] => []
      | _ :: s' => match_all_go r s' k
      end
  | O =>
      match match_here r s with
      | Some m =>
          take m s ::
            match s with
            | [] => []
            | _ :: s' => match_all_go r s' (pred m)
            end
      | None =>
          match s with
          | [] => []
          | _ :: s' => match_all_go r s' 0
          end
      end
  end.

Definition match_all (r : regex) (s : jsstring) : list jsstring :=
  match_all_go r s 0.

(** [String.prototype.match] with a global pattern: [null] when nothing
    matches, else the array of matches. *)
Definition String_match (s : jsstring) (r : regex)
    : option (list jsstring) :=
  match match_all r s with
  | [] => None
  | ms => Some ms
  end.

(** [String.prototype.replace] with a global pattern and a literal
    replacement. *)
Fixpoint replace_go (r : regex) (repl : jsstring) (s : jsstring)
    (skip : nat) : jsstring :=
  match skip with
  | S k =>
      match s with
      | [] => []
      | _ :: s' => replace_go r repl s' k
      end
  | O =>
      match match_here r s with
      | Some m =>
          repl ++
            match s with
            | [] => []
            | c :: s' =>
                (if m is O then [c] else []) ++ replace_go r repl s' (pred m)
            end
      | None =>
          match s with
          | [] => []
          | c :: s' => c :: replace_go r repl s' 0
          end
      end
  end.

Definition String_replace (s : jsstring) (r : regex) (repl : jsstring)
    : jsstring :=
  replace_go r repl s 0.

(** [String.prototype.split] with a pattern. [cur] holds, reversed, the
    code units since the end of the previous match; [cap] says that the
    whole pattern is one capture group, whose text is then spliced into
    the result. A match that is empty at the end of the previous one is
    skipped. *)
Fixpoint split_go (r : regex) (cap : bool) (s : jsstring)
    (cur : jsstring) (skip : nat) : list jsstring :=
  match s with
  | [] => [reverse cur]
  | c :: s' =>
      match skip with
      | S k => split_go r cap s' cur k
      | O =>
          match match_here r s with
          | Some (S m) =>
              reverse cur :: (if cap then [take (S m) s] else [])
                ++ split_go r cap s' [] m
          | Some O =>
              match cur with
              | [] => []
              | _ => reverse cur :: (if cap then [[]] else [])
              end ++ split_go r cap s' [c] 0
          | None => split_go r cap s' (c :: cur) 0
          end
      end
  end.

Definition String_split (s : jsstring) (r : regex) (cap : bool)
    : list jsstring :=
  match s with
  | [] => if match_here r [] is Some _ then [] else [[]]
  | _ => split_go r cap s [] 0
  end.

(** Atoms. *)
Definition lit (ch : N) : atom := Atom (N.eqb ch) 1 (Some 1) Greedy.
Definition plus (p : N → bool) : atom := Atom p 1 None Greedy.
Definition opt (p : N → bool) : atom := Atom p 0 (Some 1) Greedy.
Definition at_least (n : nat) (p : N → bool) : atom := Atom p n None Greedy.
Definition lazy_plus (p : N → bool) : atom := Atom p 1 None Lazy.

(** The words a pattern denotes. *)
Fixpoint matches (r : regex) (w : jsstring) : Prop :=
  match r with
  | [] => w = []
  | a :: r' =>
      ∃ u v, w = u ++ v
             ∧ Forall (λ c, cls a c) u
             ∧ (qmin a ≤ length u)%nat
             ∧ (∀ h, qmax a = Some h → (length u ≤ h)%nat)
             ∧ matches r' v
  end.

End Regex.

Import Regex.

(** [[A-Z]] under the [i] flag (and without [u]): the letters of both
    cases of the Basic Latin block, and no code unit from 128 on. *)
Definition is_alpha_ci (c : N) : bool := is_upper c || is_lower c.

(** [[A-Z0-9._%+-]] under [i]. *)
Definition local_class (c : N) : bool :=
  is_alpha_ci c || is_digit c || (c =? Char.dot)%N || (c =? Char.underscore)%N
  || (c =? Char.percent)%N || (c =? Char.plus)%N || (c =? Char.minus)%N.

(** [[A-Z0-9.-]] under [i]. *)
Definition domain_class (c : N) : bool :=
  is_alpha_ci c || is_digit c || (c =? Char.dot)%N || (c =? Char.minus)%N.

(** [/[A-Z0-9._%+-]+@[A-Z0-9.-]+\.[A-Z]{2,}/gi] *)
Definition EMAIL_REGEX : regex :=
  [ plus local_class; lit Char.at_sign; plus domain_class; lit Char.dot;
    at_least 2 is_alpha_ci ].

(** [/\s+/g] *)
Definition WS_RUN : regex := [ plus is_ws ].

(** [/\r?\n/] *)
Definition LINE_BREAK : regex := [ opt (N.eqb Char.cr); lit Char.lf ].

(** The emphasis pattern of [renderInlineSegments], one capture group
    around: two stars, an underscore, a lazy [.+?], an underscore, two
    stars. The dot matches anything but a line terminator. *)
Definition EMPHASIS : regex :=
  [ lit Char.star; lit Char.star; lit Char.underscore;
    lazy_plus (λ c, negb (is_line_terminator c));
    lit Char.underscore; lit Char.star; lit Char.star ].


(** ** Values

    The analysis record is loosely typed data. An object is the list of
    its own enumerable properties in enumeration order, which is the
    order [Object.values] follows. No operation of the file reads a
    number: only its [typeof] and whether it is falsy. *)

Inductive jsvalue :=
| VUndefined
| VNull
| VBool (b : bool)
| VNum (n : Z)
| VStr (s : jsstring)
| VArr (items : list jsvalue)
| VObj (fields : list (jsstring * jsvalue)).

Abbreviation obj := (list (jsstring * jsvalue)).

(** [!!value] *)
Definition truthy (v : jsvalue) : bool :=
  match v with
  | VUndefined | VNull => false
  | VBool b => b
  | VNum n => negb (n =? 0)%Z
  | VStr s => if s is [] then false else true
  | VArr _ | VObj _ => true
  end.

(** An own property of an object; [undefined] when there is none. *)
Fixpoint field (fs : obj) (k : jsstring) : jsvalue :=
  match fs with
  | [] => VUndefined
  | (k', v) :: fs' => if decide (k' = k) then v else field fs' k
  end.

(** [v?.k] for the property names of this file (none is [length], an
    index or a name of a prototype): [undefined] on [null], [undefined]
    and every primitive or array. *)
Definition get (v : jsvalue) (k : jsstring) : jsvalue :=
  match v with
  | VObj fs => field fs k
  | _ => VUndefined
  end.

(** ** Completions: a value or a thrown exception *)

Inductive exn := TypeError | SyntaxError | Rejected.

Inductive completion (A : Type) : Type :=
| Normal (a : A)
| Throw (e : exn).
Arguments Normal {A} a.
Arguments Throw {A} e.

#[global] Instance completion_ret : MRet completion := λ A a, Normal a.
#[global] Instance completion_bind : MBind completion := λ A B f m,
  match m with
  | Normal a => f a
  | Throw e => Throw e
  end.

(** [v.k]: throws on [null] and [undefined]. *)
Definition member (v : jsvalue) (k : jsstring) : completion jsvalue :=
  match v with
  | VUndefined | VNull => Throw TypeError
  | _ => Normal (get v k)
  end.

(** [v?.k]: never throws. *)
Definition opt_member (v : jsvalue) (k : jsstring) : completion jsvalue :=
  Normal (get v k).

(** [v ?? d] *)
Definition nullish_or (v d : jsvalue) : jsvalue :=
  match v with
  | VUndefined | VNull => d
  | _ => v
  end.

(** ** The email harvest *)

(** [collectEmails], the callback [push] threading the state it mutates. *)
Fixpoint collectEmails {St : Type} (value : jsvalue)
    (push : jsstring → St → St) (st : St) : St :=
  if negb (truthy value) then st
  else
    match value with
    | VStr s =>
        match String_match s EMAIL_REGEX with
        | Some matches =>
            foldl (λ st match_,
                     let trimmed := trim match_ in
                     if trimmed is [] then st else push trimmed st)
                  st matches
        | None => st
        end
    | VArr items => foldl (λ st item, collectEmails item push st) st items
    | VObj fields =>
        foldl (λ st (kv : jsstring * jsvalue), collectEmails kv.2 push st)
              st fields
    | _ => st
    end.

(** The closure state of [founderEmails]. *)
Record harvest_state := HarvestState {
  seen : gset jsstring;
  ordered : list jsstring
}.

Definition push (email : jsstring) (st : harvest_state) : harvest_state :=
  let trimmed := trim email in
  if trimmed is [] then st
  else
    let key := toLowerCase trimmed in
    if bool_decide (key ∈ seen st) then st
    else {| seen := {[key]} ∪ seen st; ordered := ordered st ++ [trimmed] |}.

Definition harvest (value : jsvalue) (st : harvest_state) : harvest_state :=
  collectEmails value push st.

(** [publicData]: [JSON.parse] is the runtime's, and its throwing is
    caught. *)
Definition publicData (JSON_parse : jsstring → completion jsvalue)
    (analysisData : obj) : jsvalue :=
  let raw := field analysisData (js "public_data") in
  if negb (truthy raw) then VObj []
  else
    match raw with
    | VStr s =>
        match JSON_parse s with
        | Normal parsed =>
            match parsed with
            | VArr _ | VObj _ => parsed
            | _ => VObj []
            end
        | Throw _ => VObj []
        end
    | VArr _ | VObj _ => raw
    | _ => VObj []
    end.

Definition founderEmails (analysisData : obj) (publicData : jsvalue)
    : list jsstring :=
  let st0 := {| seen := ∅; ordered := [] |} in
  let metadata := field analysisData (js "metadata") in
  let st1 :=
    if truthy metadata then
      let sa := harvest (get metadata (js "founder_emails")) st0 in
      let sb := harvest (get metadata (js "contact_email")) sa in
      harvest (get metadata (js "founder_contacts")) sb
    else st0 in
  let draft_v1 := get (field analysisData (js "memo")) (js "draft_v1") in
  let st2 :=
    harvest (get (get draft_v1 (js "company_overview")) (js "founders")) st1 in
  let st3 := harvest draft_v1 st2 in
  let st4 := harvest publicData st3 in
  ordered st4.

(** ** Identity resolution *)

#[global] Instance completion_fmap : FMap completion := λ A B f m,
  match m with
  | Normal a => Normal (f a)
  | Throw e => Throw e
  end.

(** [a || b] on strings: [b] is evaluated only when [a] is empty. *)
Definition or_else (a b : completion jsstring) : completion jsstring :=
  x ← a; if x is [] then b else mret x.
Infix "|||" := or_else (at level 50, left associativity).

Definition coerce (value : jsvalue) : jsstring :=
  match value with
  | VStr s => trim s
  | _ => []
  end.

(** [String.prototype.split] with a separator of one code unit. *)
Fixpoint split_char (sep : N) (s : jsstring) : list jsstring :=
  match s with
  | [] => [[]]
  | c :: s' =>
      if (c =? sep)%N then [] :: split_char sep s'
      else
        match split_char sep s' with
        | x :: xs => (c :: x) :: xs
        | [] => [[c]]
        end
  end.

Definition namesMeta (analysisData : obj) : completion jsvalue :=
  names ← opt_member (field analysisData (js "metadata")) (js "names");
  mret (nullish_or names (VObj [])).

(** [analysisData.memo?.draft_v1?.company_overview?.k] *)
Definition company_overview_member (analysisData : obj) (k : jsstring)
    : completion jsvalue :=
  draft_v1 ← opt_member (field analysisData (js "memo")) (js "draft_v1");
  company_overview ← opt_member draft_v1 (js "company_overview");
  opt_member company_overview k.

Definition companyName (analysisData : obj) : completion jsstring :=
  let metadata := field analysisData (js "metadata") in
  namesMeta ← namesMeta analysisData;
  (coerce <$> member namesMeta (js "company"))
  ||| (coerce <$> opt_member metadata (js "company_legal_name"))
  ||| (coerce <$> opt_member metadata (js "company_name"))
  ||| (coerce <$> company_overview_member analysisData (js "name")).

Definition sanitizeProductName (value : jsstring) : option jsstring :=
  let trimmed := trim value in
  if trimmed is [] then None
  else
    let normalized := String_replace trimmed WS_RUN [Char.space] in
    let wordCount := length (split_char Char.space normalized) in
    if (60 <? length normalized)%nat || (6 <? wordCount)%nat then None
    else Some normalized.

Definition rawProductName (analysisData : obj) : completion jsstring :=
  let metadata := field analysisData (js "metadata") in
  namesMeta ← namesMeta analysisData;
  (coerce <$> member namesMeta (js "product"))
  ||| (coerce <$> opt_member metadata (js "product_name"))
  ||| mret [].

Definition memoProductCandidate (analysisData : obj) : completion jsstring :=
  coerce <$> company_overview_member analysisData (js "technology").

(** [a || b] where [a] is a string or [undefined]. *)
Definition or_undefined (a b : option jsstring) : option jsstring :=
  match a with
  | Some (c :: s) => Some (c :: s)
  | _ => b
  end.

Definition productName (analysisData : obj) : completion (option jsstring) :=
  rawProductName ← rawProductName analysisData;
  memoProductCandidate ← memoProductCandidate analysisData;
  mret (or_undefined (sanitizeProductName rawProductName)
          (if memoProductCandidate is [] then None
           else sanitizeProductName memoProductCandidate)).

Definition displayName (analysisData : obj) : completion jsstring :=
  let metadata := field analysisData (js "metadata") in
  namesMeta ← namesMeta analysisData;
  companyName ← companyName analysisData;
  productName ← productName analysisData;
  (coerce <$> member namesMeta (js "display"))
  ||| (coerce <$> opt_member metadata (js "display_name"))
  ||| mret companyName
  ||| mret (default [] productName)
  ||| mret (js "the company").

Record ResolvedIdentity := {
  resolved_company : jsstring;
  resolved_product : option jsstring;
  resolved_display : jsstring
}.

(** The identity constants of the component body, in the order it
    computes them. [showProduct] and [combinedName], which compare the
    lowered names and concatenate them, are built from these three; they
    come with the labels of the mail text further down. *)
Definition resolve (analysisData : obj) : completion ResolvedIdentity :=
  c ← companyName analysisData;
  p ← productName analysisData;
  d ← displayName analysisData;
  mret {| resolved_company := c; resolved_product := p;
          resolved_display := d |}.

(** ** The mail link *)

(** [URLSearchParams]: the list of name and value pairs. *)
Abbreviation params := (list (jsstring * jsstring)).

(** [URLSearchParams.prototype.set]: the first pair of that name takes
    the value and the later ones go; a new pair is appended when there
    is none. *)
Fixpoint params_set (ps : params) (name value : jsstring) : params :=
  match ps with
  | [] => [(name, value)]
  | (n, v) :: ps' =>
      if decide (n = name)
      then (n, value) :: filter (λ p, p.1 ≠ name) ps'
      else (n, v) :: params_set ps' name value
  end.

(** Scalar values of a string: a surrogate pair is one code point, a lone
    surrogate becomes U+FFFD. *)
Definition is_high_surrogate (c : N) : bool := between 55296 56319 c.
Definition is_low_surrogate (c : N) : bool := between 56320 57343 c.

Fixpoint scalar_values (s : jsstring) : list N :=
  match s with
  | [] => []
  | c :: s' =>
      if is_high_surrogate c then
        match s' with
        | d :: s'' =>
            if is_low_surrogate d
            then (65536 + (c - 55296) * 1024 + (d - 56320))%N
                   :: scalar_values s''
            else 65533%N :: scalar_values s'
        | [] => [65533%N]
        end
      else if is_low_surrogate c then 65533%N :: scalar_values s'
      else c :: scalar_values s'
  end.

Definition utf8 (cp : N) : list N :=
  (if cp <? 128 then [cp]
   else if cp <? 2048 then [192 + cp / 64; 128 + cp mod 64]
   else if cp <? 65536 then
     [224 + cp / 4096; 128 + (cp / 64) mod 64; 128 + cp mod 64]
   else
     [240 + cp / 262144; 128 + (cp / 4096) mod 64;
      128 + (cp / 64) mod 64; 128 + cp mod 64])%N.

Definition hex_digit (n : N) : N := (if n <? 10 then 48 + n else 55 + n)%N.

(** The bytes the form-urlencoded serializer leaves as they are. *)
Definition form_safe (b : N) : bool :=
  is_upper b || is_lower b || is_digit b || (b =? Char.star)%N
  || (b =? Char.minus)%N || (b =? Char.dot)%N || (b =? Char.underscore)%N.

Definition encode_byte (b : N) : jsstring :=
  if (b =? Char.space)%N then [Char.plus]
  else if form_safe b then [b]
  else [Char.percent; hex_digit (b / 16); hex_digit (b mod 16)].

Definition urlencode (s : jsstring) : jsstring :=
  concat (encode_byte <$> concat (utf8 <$> scalar_values s)).

(** [URLSearchParams.prototype.toString] *)
Definition params_toString (ps : params) : jsstring :=
  join [Char.amp]
    ((λ p : jsstring * jsstring, urlencode p.1 ++ [Char.equals] ++ urlencode p.2)
       <$> ps).

Definition gmailParams (mailSubject mailBody : jsstring)
    (founderEmails : list jsstring) : params :=
  let gmailParams :=
    [ (js "view", js "cm"); (js "fs", js "1");
      (js "su", mailSubject); (js "body", mailBody) ] in
  if (0 <? length founderEmails)%nat
  then params_set gmailParams (js "to") (join [Char.comma] founderEmails)
  else gmailParams.

Definition gmailLink (mailSubject mailBody : jsstring)
    (founderEmails : list jsstring) : jsstring :=
  js "https://mail.google.com/mail/?"
  ++ params_toString (gmailParams mailSubject mailBody founderEmails).

(** ** The text formatter

    The rendered tree, without the presentation: a paragraph or a list,
    each holding the children [renderInlineSegments] returns, where
    [None] is the [null] child of an empty segment. *)

Inductive Span :=
| PlainText (text : jsstring)
| Emphasis (text : jsstring).

Inductive Block :=
| Paragraph (children : list (option Span))
| BulletList (items : list (list (option Span))).

Fixpoint startsWith (s p : jsstring) : bool :=
  match p, s with
  | [], _ => true
  | a :: p', c :: s' => (c =? a)%N && startsWith s' p'
  | _ :: _, [] => false
  end.

Definition endsWith (s p : jsstring) : bool :=
  startsWith (reverse s) (reverse p).

(** [s.slice(a, -b)] *)
Definition slice_inner (s : jsstring) (a b : nat) : jsstring :=
  take (length s - b - a) (drop a s).

Definition renderInlineSegments (text : jsstring) : list (option Span) :=
  (λ segment : jsstring,
     if segment is [] then None
     else if startsWith segment (js "**_") && endsWith segment (js "_**")
     then Some (Emphasis (slice_inner segment 3 3))
     else Some (PlainText segment))
  <$> String_split text EMPHASIS true.

(** The two variables [renderMessageContent] mutates. *)
Record render_state := RenderState {
  nodes : list Block;
  listBuffer : list jsstring
}.

Definition flushList (st : render_state) : render_state :=
  if listBuffer st is [] then st
  else {| nodes := nodes st
                   ++ [BulletList (renderInlineSegments <$> listBuffer st)];
          listBuffer := [] |}.

(** The body of the [forEach] over the lines, [len] being [lines.length]. *)
Definition render_line (len : nat) (st : render_state)
    (entry : nat * jsstring) : render_state :=
  let '(idx, line) := entry in
  if startsWith line [Char.bullet] then
    let st' := {| nodes := nodes st;
                  listBuffer := listBuffer st ++ [trim (drop 1 line)] |} in
    if (idx =? len - 1)%nat then flushList st' else st'
  else
    let st' := flushList st in
    {| nodes := nodes st' ++ [Paragraph (renderInlineSegments line)];
       listBuffer := listBuffer st' |}.

Definition message_lines (text : jsstring) : list jsstring :=
  filter (λ line : jsstring, (0 < length line)%nat)
         (trim <$> String_split text LINE_BREAK false).

(** The loop over the lines and the closing [flushList]. *)
Definition format_lines (lines : list jsstring) : list Block :=
  let st := foldl (render_line (length lines))
                  {| nodes := []; listBuffer := [] |}
                  (imap pair lines) in
  nodes (flushList st).

Definition renderMessageContent (text : jsstring) : list Block :=
  let lines := message_lines text in
  if lines is [] then [Paragraph [Some (PlainText text)]]
  else format_lines lines.

(** ** The conversation handlers *)

Inductive Role := user | model.

Record Message := { role : Role; content : jsstring }.

Record StartupInterviewerInput := {
  input_analysisData : jsstring;
  input_history : list Message
}.

Record StartupInterviewerOutput := { message : jsstring }.

(** The component state: [messages], [input], [isLoading]. *)
Record State := {
  messages : list Message;
  input : jsstring;
  isLoading : bool
}.

(** The state on mount. *)
Definition initial_state : State :=
  {| messages := []; input := []; isLoading := true |}.

(** A handler: a state transformer that returns or throws. *)
Definition Handler (A : Type) : Type := State → State * completion A.

#[global] Instance handler_ret : MRet Handler := λ A a st, (st, Normal a).
#[global] Instance handler_bind : MBind Handler := λ A B f m st,
  match m st with
  | (st', Normal a) => f a st'
  | (st', Throw e) => (st', Throw e)
  end.

Definition setMessages (f : list Message → list Message) : Handler unit :=
  λ st, ({| messages := f (messages st); input := input st;
            isLoading := isLoading st |}, Normal ()).

Definition setInput (s : jsstring) : Handler unit :=
  λ st, ({| messages := messages st; input := s;
            isLoading := isLoading st |}, Normal ()).

Definition setIsLoading (b : bool) : Handler unit :=
  λ st, ({| messages := messages st; input := input st;
            isLoading := b |}, Normal ()).

(** A computation that does not touch the state. *)
Definition lift {A} (c : completion A) : Handler A := λ st, (st, c).

(** [try { body } catch (e) { handler } finally { fin }] *)
Definition try_catch_finally (body : Handler unit)
    (handler : exn → Handler unit) (fin : Handler unit) : Handler unit :=
  λ st,
    let '(st1, c1) :=
      match body st with
      | (st', Throw e) => handler e st'
      | r => r
      end in
    match fin st1 with
    | (st2, Normal _) => (st2, c1)
    | (st2, Throw e) => (st2, Throw e)
    end.

Definition start_apology : jsstring :=
  js "Sorry, I am having trouble starting the conversation. Please try refreshing.".

Definition send_apology : jsstring :=
  js "Sorry, something went wrong. Please try again.".

Section Controller.

(** The runtime's [JSON.stringify] and the interview service, whose
    promise resolves with a result or rejects. *)
Variable JSON_stringify : obj → completion jsstring.
Variable interviewStartup :
  StartupInterviewerInput → completion StartupInterviewerOutput.

Definition getInitialBotMessage (analysisData : obj) : Handler unit :=
  setIsLoading true;;
  try_catch_finally
    (serialized ← lift (JSON_stringify analysisData);
     let initialInput :=
       {| input_analysisData := serialized; input_history := [] |} in
     result ← lift (interviewStartup initialInput);
     setMessages (λ _, [ {| role := model; content := message result |} ]))
    (λ e,
     setMessages (λ _, [ {| role := model; content := start_apology |} ]))
    (setIsLoading false).

(** The handler reads [input] and [messages] as they are when it is
    called. *)
Definition handleSendMessage (analysisData : obj) : Handler unit :=
  λ st,
    if trim (input st) is [] then (st, Normal ())
    else
      let userMessage := {| role := user; content := input st |} in
      let newMessages := messages st ++ [userMessage] in
      (setMessages (λ _, newMessages);;
       setInput [];;
       setIsLoading true;;
       try_catch_finally
         (serialized ← lift (JSON_stringify analysisData);
          result ← lift (interviewStartup
                           {| input_analysisData := serialized;
                              input_history := newMessages |});
          setMessages (λ prevMessages,
            prevMessages ++ [ {| role := model; content := message result |} ]))
         (λ e,
          setMessages (λ prevMessages,
            prevMessages ++ [ {| role := model; content := send_apology |} ]))
         (setIsLoading false)) st.

(** The key handler of the input box:
    [e.key === 'Enter' && !isLoading && handleSendMessage()]. *)
Definition onKeyDown (analysisData : obj) (key : jsstring) : Handler unit :=
  λ st,
    if bool_decide (key = js "Enter") && negb (isLoading st)
    then handleSendMessage analysisData st
    else (st, Normal ()).

(** The [disabled] attribute of the send button:
    [isLoading || !input.trim()]. *)
Definition send_disabled (st : State) : bool :=
  isLoading st || (if trim (input st) is [] then true else false).

(** The opening request does not come back with a result: serializing
    the record throws, or the service rejects the request. *)
Definition start_request_fails (analysisData : obj) : Prop :=
  match JSON_stringify analysisData with
  | Normal serialized =>
      ∃ e, interviewStartup
             {| input_analysisData := serialized; input_history := [] |}
           = Throw e
  | Throw _ => True
  end.

End Controller.

(** * Specification-side definitions

    What the statements below are phrased with: these follow the words
    of the specification, not the code. *)

(** ** Emails *)

(** A local part, [@], a domain, a dot and a top-level domain of two
    letters or more. *)
Definition email_shape (x : jsstring) : Prop :=
  ∃ l d t, x = l ++ Char.at_sign :: d ++ Char.dot :: t
           ∧ l ≠ [] ∧ Forall (λ c, local_class c) l
           ∧ d ≠ [] ∧ Forall (λ c, domain_class c) d
           ∧ 2 ≤ length t ∧ Forall (λ c, is_alpha_ci c) t.

(** The email matches of a value, in visiting order: a string gives its
    matches, an array those of its elements, an object those of its
    property values, anything else none. *)
Fixpoint emails_in (v : jsvalue) : list jsstring :=
  if negb (truthy v) then []
  else
    match v with
    | VStr s => match_all EMAIL_REGEX s
    | VArr items => flat_map emails_in items
    | VObj fields => flat_map (λ kv : jsstring * jsvalue, emails_in kv.2) fields
    | _ => []
    end.

(** Each address at the place and in the casing it is first seen. *)
Fixpoint first_occurrences (l : list jsstring) : list jsstring :=
  match l with
  | [] => []
  | x :: l' =>
      x :: filter (λ y, toLowerCase y ≠ toLowerCase x) (first_occurrences l')
  end.

(** The loop of [push], [keys] being the lowered addresses seen so far. *)
Fixpoint dedup_from (keys : list jsstring) (l : list jsstring)
    : list jsstring :=
  match l with
  | [] => []
  | x :: l' =>
      if decide (toLowerCase x ∈ keys) then dedup_from keys l'
      else x :: dedup_from (keys ++ [toLowerCase x]) l'
  end.

(** [seen] holds the lowered form of what [ordered] holds. *)
Definition harvest_inv (st : harvest_state) : Prop :=
  ∀ k, k ∈ seen st ↔ k ∈ toLowerCase <$> ordered st.

(** A string [push] appends as it is. *)
Definition pushable (x : jsstring) : Prop := trim x = x ∧ x ≠ [].

(** The six values [founderEmails] harvests, in the order it does. *)
Definition six_sources (analysisData : obj) (publicData : jsvalue)
    : list jsvalue :=
  let metadata := field analysisData (js "metadata") in
  let draft_v1 := get (field analysisData (js "memo")) (js "draft_v1") in
  [ get metadata (js "founder_emails");
    get metadata (js "contact_email");
    get metadata (js "founder_contacts");
    get (get draft_v1 (js "company_overview")) (js "founders");
    draft_v1;
    publicData ].

(** The six sources as the specification lists them: the fifth is the
    company overview. *)
Definition claimed_sources (analysisData : obj) (publicData : jsvalue)
    : list jsvalue :=
  let metadata := field analysisData (js "metadata") in
  let company_overview :=
    get (get (field analysisData (js "memo")) (js "draft_v1"))
        (js "company_overview") in
  [ get metadata (js "founder_emails");
    get metadata (js "contact_email");
    get metadata (js "founder_contacts");
    get company_overview (js "founders");
    company_overview;
    publicData ].

(** The addresses found in the sources, in the order of discovery. *)
Definition discovered (analysisData : obj) (publicData : jsvalue)
    : list jsstring :=
  flat_map emails_in (six_sources analysisData publicData).

(** [x] stands before [y] in [l]. *)
Definition precedes (x y : jsstring) (l : list jsstring) : Prop :=
  ∃ i j, l !! i = Some x ∧ l !! j = Some y ∧ i < j.

(** [x] is found in source [k]. *)
Definition found_in (srcs : list jsvalue) (k : nat) (x : jsstring) : Prop :=
  ∃ v, srcs !! k = Some v ∧ x ∈ emails_in v.

(** No earlier source than [k] holds [x] in any casing. *)
Definition new_in (srcs : list jsvalue) (k : nat) (x : jsstring) : Prop :=
  ∀ k' v, k' < k → srcs !! k' = Some v →
          toLowerCase x ∉ toLowerCase <$> emails_in v.

(** [metadata.founder_emails = "a@x.com"], [metadata.contact_email =
    "A@X.com"]. *)
Definition two_casings_record : obj :=
  [ (js "metadata",
     VObj [ (js "founder_emails", VStr (js "a@x.com"));
            (js "contact_email", VStr (js "A@X.com")) ]) ].

(** An address in a section of the memo draft that is not the company
    overview. *)
Definition draft_team_record : obj :=
  [ (js "memo",
     VObj [ (js "draft_v1", VObj [ (js "team", VStr (js "z@z.com")) ]) ]) ].

(** One address in [metadata.contact_email], another in the memo draft. *)
Definition two_sources_record : obj :=
  [ (js "metadata", VObj [ (js "contact_email", VStr (js "b@y.com")) ]);
    (js "memo",
     VObj [ (js "draft_v1", VObj [ (js "note", VStr (js "a@x.com")) ]) ]) ].

(** ** Words *)

(** One pass over the string: a space for the first unit of a
    whitespace run, nothing for the others. *)
Fixpoint collapse (in_run : bool) (s : jsstring) : jsstring :=
  match s with
  | [] => []
  | c :: s' =>
      if is_ws c then (if in_run then [] else [Char.space]) ++ collapse true s'
      else c :: collapse false s'
  end.

(** The words of a string: its maximal runs of code units that are not
    whitespace. [cur] is the word being read, reversed. *)
Fixpoint words_go (cur : jsstring) (s : jsstring) : list jsstring :=
  match s with
  | [] => if cur is [] then [] else [reverse cur]
  | c :: s' =>
      if is_ws c
      then (if cur is [] then [] else [reverse cur]) ++ words_go [] s'
      else words_go (c :: cur) s'
  end.

Definition words (s : jsstring) : list jsstring := words_go [] s.

Definition all_ws (s : jsstring) : Prop := Forall (λ c, is_ws c = true) s.

(** The string is empty or ends outside whitespace. *)
Definition no_trailing_ws (s : jsstring) : Prop :=
  ∀ s' c, s = s' ++ [c] → is_ws c = false.

(** Sanitization as the specification words it: the name trimmed and
    its whitespace runs collapsed, rejected exactly when that is longer
    than 60 or has more than 6 space-separated words. *)
Definition claimed_sanitize (value : jsstring) : option jsstring :=
  let normalized := String_replace (trim value) WS_RUN [Char.space] in
  if (60 <? length normalized)
     || (6 <? length (split_char Char.space normalized))
  then None else Some normalized.

(** ** Identity *)

(** [a || b] on two strings. *)
Definition or_str (a b : jsstring) : jsstring := if a is [] then b else a.

(** The names bag: [metadata?.names ?? {}]. *)
Definition names_of (analysisData : obj) : jsvalue :=
  nullish_or (get (field analysisData (js "metadata")) (js "names")) (VObj []).

(** [memo?.draft_v1?.company_overview] *)
Definition overview_of (analysisData : obj) : jsvalue :=
  get (get (field analysisData (js "memo")) (js "draft_v1"))
      (js "company_overview").

(** The first candidate that is not empty once trimmed, sanitized; the
    technology field of the memo, sanitized, when that gives nothing. *)
Definition product_of (analysisData : obj) : option jsstring :=
  let raw :=
    or_str (coerce (get (names_of analysisData) (js "product")))
           (coerce (get (field analysisData (js "metadata")) (js "product_name"))) in
  match sanitizeProductName raw with
  | Some n => Some n
  | None =>
      sanitizeProductName (coerce (get (overview_of analysisData) (js "technology")))
  end.

(** The product name as the specification words it: the first of the
    two candidates that passes sanitization, else the technology field
    of the memo, sanitized. *)
Definition claimed_productName (analysisData : obj) : option jsstring :=
  match sanitizeProductName
          (coerce (get (names_of analysisData) (js "product"))) with
  | Some n => Some n
  | None =>
      match sanitizeProductName
              (coerce (get (field analysisData (js "metadata"))
                           (js "product_name"))) with
      | Some n => Some n
      | None =>
          sanitizeProductName
            (coerce (get (overview_of analysisData) (js "technology")))
      end
  end.

(** A first candidate of seven words, a second one of one word. *)
Definition prose_product_record : obj :=
  [ (js "metadata",
     VObj [ (js "names", VObj [ (js "product", VStr (js "a b c d e f g")) ]);
            (js "product_name", VStr (js "Acme")) ]) ].

(** ** Blocks *)

Definition is_bullet (line : jsstring) : bool := startsWith line [Char.bullet].

(** The list item of a bullet line: the marker stripped, then trimmed. *)
Definition bullet_item (line : jsstring) : jsstring := trim (drop 1 line).

(** The list block of the buffered items, none when there is no item. *)
Definition flushed (buf : list jsstring) : list Block :=
  if buf is [] then [] else [BulletList (renderInlineSegments <$> buf)].

(** The blocks of the lines, by recursion on the lines: [buf] holds the
    items of the bullet lines since the last paragraph. *)
Fixpoint blocks_of (buf : list jsstring) (lines : list jsstring) : list Block :=
  match lines with
  | [] => flushed buf
  | line :: rest =>
      if is_bullet line then blocks_of (buf ++ [bullet_item line]) rest
      else flushed buf ++ Paragraph (renderInlineSegments line) :: blocks_of [] rest
  end.

(** The reply of the specification's example: two bullet lines, then a
    plain line. *)
Definition bullets_then_plain : jsstring :=
  [Char.bullet] ++ js " one" ++ [Char.lf] ++ [Char.bullet] ++ js " two"
  ++ [Char.lf] ++ js "plain line".

(** ** The query string *)

(** A string of 16-bit code units. *)
Definition code_units (s : jsstring) : bool := forallb (λ c, c <? 65536)%N s.

(** The code units of an encoded value: the bytes left as they are, [+],
    and [%] with its hexadecimal digits. *)
Definition encoded_char (c : N) : bool :=
  form_safe c || (c =? Char.plus)%N || (c =? Char.percent)%N.

(** The code units of a query string: those and the separators. *)
Definition query_char (c : N) : bool :=
  encoded_char c || (c =? Char.amp)%N || (c =? Char.equals)%N.

Definition not_sep (c : N) : Prop := c ≠ Char.amp ∧ c ≠ Char.equals.

(** The four pairs the link always carries. *)
Definition base_params (mailSubject mailBody : jsstring) : params :=
  [ (js "view", js "cm"); (js "fs", js "1");
    (js "su", mailSubject); (js "body", mailBody) ].

(** One field of the query string: the name, [=], the encoded value. *)
Definition query_field (name : string) (value : jsstring) : jsstring :=
  js name ++ [Char.equals] ++ urlencode value.

(** The fields of the query string of the link. *)
Definition link_fields (mailSubject mailBody : jsstring)
    (founderEmails : list jsstring) : list jsstring :=
  [ js "view=cm"; js "fs=1";
    query_field "su" mailSubject; query_field "body" mailBody ]
  ++ (if founderEmails is [] then []
      else [query_field "to" (join [Char.comma] founderEmails)]).

(** ** Conversation states *)

(** A request in flight and a text in the input box. *)
Definition busy_state : State :=
  {| messages := []; input := js "hi"; isLoading := true |}.

(** No request in flight and a blank input box. *)
Definition blank_state : State :=
  {| messages := []; input := js "   "; isLoading := false |}.


(** * The rest of the component *)

(** ** Labels and mail text

    [String.prototype.toLowerCase] on the names is the runtime's, on any
    text; it is a parameter here. *)

Section Labels.

Variable String_toLowerCase : jsstring → jsstring.

(** [Boolean(productName && (!companyName || productName.toLowerCase()
    !== companyName.toLowerCase()))] *)
Definition showProduct (companyName : jsstring)
    (productName : option jsstring) : bool :=
  match productName with
  | Some (c :: p) =>
      if companyName is [] then true
      else negb (bool_decide (String_toLowerCase (c :: p)
                              = String_toLowerCase companyName))
  | _ => false
  end.

(** A string or [undefined] inside a template literal. *)
Definition template_value (v : option jsstring) : jsstring :=
  match v with
  | Some s => s
  | None => js "undefined"
  end.

Definition combinedName (companyName : jsstring)
    (productName : option jsstring) (displayName : jsstring) : jsstring :=
  if showProduct companyName productName
  then or_str companyName displayName ++ js " (Product: "
       ++ template_value productName ++ js ")"
  else or_str companyName displayName.

End Labels.

(** U+2013 EN DASH. *)
Definition en_dash : N := 8211.

Definition mailSubject (combinedName : jsstring) : jsstring :=
  js "Intro call request " ++ [en_dash] ++ js " " ++ combinedName.

(** [companyName || displayName || productName || 'your company'] *)
Definition fallbackCompany (companyName : jsstring)
    (productName : option jsstring) (displayName : jsstring) : jsstring :=
  or_str (or_str (or_str companyName displayName) (default [] productName))
         (js "your company").

(** [productName || 'your product'] *)
Definition productLabel (productName : option jsstring) : jsstring :=
  or_str (default [] productName) (js "your product").

Definition mailBody (productLabel companyLabel : jsstring) : jsstring :=
  join [Char.lf]
    [ js "Hi,";
      [];
      js "I'd love to schedule time to discuss about (" ++ productLabel
        ++ js ") from your company (" ++ companyLabel ++ js ").";
      js "Are you available for a 30-minute call this week to cover product traction, go-to-market, and financial plans?";
      [];
      js "Looking forward to the conversation.";
      [];
      js "Best regards,";
      js "[Your Name]" ].

(** The link of the component: the subject and the body made from the
    resolved names, the recipients from the harvest. *)
Definition gmailLink_of (String_toLowerCase : jsstring → jsstring)
    (JSON_parse : jsstring → completion jsvalue) (analysisData : obj)
    : completion jsstring :=
  identity ← resolve analysisData;
  let c := resolved_company identity in
  let p := resolved_product identity in
  let d := resolved_display identity in
  mret (gmailLink (mailSubject (combinedName String_toLowerCase c p d))
                  (mailBody (productLabel p) (fallbackCompany c p d))
                  (founderEmails analysisData
                                 (publicData JSON_parse analysisData))).

(** ** Events of the conversation

    The effect that runs [getInitialBotMessage] on mount and when the
    record changes, the change handler of the input box
    ([setInput(e.target.value)]) and its key handler. The events are
    taken one after the other: a handler runs to its end, with the
    answer of the service, before the next event. The click on the send
    button, which the browser withholds while the button is disabled, is
    not among the events. *)

Inductive Event :=
| Mount
| Change (value : jsstring)
| KeyDown (key : jsstring).

Section Events.

Variable JSON_stringify : obj → completion jsstring.
Variable interviewStartup :
  StartupInterviewerInput → completion StartupInterviewerOutput.
Variable analysisData : obj.

Definition dispatch (e : Event) : Handler unit :=
  match e with
  | Mount => getInitialBotMessage JSON_stringify interviewStartup analysisData
  | Change value => setInput value
  | KeyDown key => onKeyDown JSON_stringify interviewStartup analysisData key
  end.

(** The state after the events, from the left. *)
Definition run_events (es : list Event) (st : State) : State :=
  foldl (λ st e, (dispatch e st).1) st es.

End Events.

(** * More specification-side definitions *)

(** [typeof v === 'object' && v !== null] *)
Definition is_object (v : jsvalue) : bool :=
  match v with
  | VArr _ | VObj _ => true
  | _ => false
  end.

(** The strings a value holds, in visiting order; the keys of an object
    are not among them. *)
Fixpoint strings_in (v : jsvalue) : list jsstring :=
  match v with
  | VStr s => [s]
  | VArr items => flat_map strings_in items
  | VObj fields => flat_map (λ kv : jsstring * jsvalue, strings_in kv.2) fields
  | _ => []
  end.

(** [x] stands in [s] as a run of consecutive code units. *)
Definition infix_of (x s : jsstring) : Prop := ∃ a b, s = a ++ x ++ b.

(** The string is empty, or neither begins nor ends with whitespace. *)
Definition trimmed (s : jsstring) : Prop :=
  (∀ c t, s = c :: t → is_ws c = false) ∧ no_trailing_ws s.

(** A value [coerce] turns into the empty string. *)
Definition blank (v : jsvalue) : Prop :=
  match v with
  | VStr s => all_ws s
  | _ => True
  end.

(** The four fields [companyName] looks at, in its order. *)
Definition company_candidates (analysisData : obj) : list jsvalue :=
  [ get (names_of analysisData) (js "company");
    get (field analysisData (js "metadata")) (js "company_legal_name");
    get (field analysisData (js "metadata")) (js "company_name");
    get (overview_of analysisData) (js "name") ].

(** What a span shows. *)
Definition shown (child : option Span) : jsstring :=
  match child with
  | None => []
  | Some (PlainText text) => text
  | Some (Emphasis text) => text
  end.

(** The segment is an emphasis marked in full, [**_] then a body then
    [_**], or the five code units in which the two markers share the
    underscore. *)
Definition marked (segment : jsstring) : Prop :=
  (∃ body, segment = js "**_" ++ body ++ js "_**") ∨ segment = js "**_**".

(** What a child keeps of the segment it is made from: no child for the
    empty segment only, the whole segment in a plain child, and in an
    emphasis the segment without its two markers. *)
Definition keeps (segment : jsstring) (child : option Span) : Prop :=
  match child with
  | None => segment = []
  | Some (PlainText shown_text) =>
      shown_text = segment ∧ segment ≠ [] ∧ ¬ marked segment
  | Some (Emphasis body) =>
      segment = js "**_" ++ body ++ js "_**"
      ∨ (segment = js "**_**" ∧ body = [])
  end.

(** What a line of the message becomes: a list item or a paragraph. *)
Inductive Entry :=
| ItemEntry (children : list (option Span))
| ParagraphEntry (children : list (option Span)).

(** The entries of a block, in order: its items for a list, itself for a
    paragraph. *)
Definition block_entries (b : Block) : list Entry :=
  match b with
  | Paragraph children => [ParagraphEntry children]
  | BulletList items => ItemEntry <$> items
  end.

(** No list block is empty and no two list blocks are neighbours. *)
Fixpoint well_grouped (bs : list Block) : bool :=
  match bs with
  | [] => true
  | b :: bs' =>
      match b with
      | Paragraph _ => true
      | BulletList items =>
          (if items is [] then false else true)
          && match bs' with
             | BulletList _ :: _ => false
             | _ => true
             end
      end && well_grouped bs'
  end.

(** What a line gives: the item of a bullet line, the paragraph of any
    other. *)
Definition line_entry (line : jsstring) : Entry :=
  if is_bullet line then ItemEntry (renderInlineSegments (bullet_item line))
  else ParagraphEntry (renderInlineSegments line).

Definition is_model (m : Message) : bool :=
  match role m with model => true | user => false end.

Definition is_user (m : Message) : bool :=
  match role m with user => true | model => false end.

(** Pairs of a user message and the model message that answers it. *)
Fixpoint exchanges (ms : list Message) : bool :=
  match ms with
  | [] => true
  | u :: ms' =>
      match ms' with
      | m :: rest => is_user u && is_model m && exchanges rest
      | [] => false
      end
  end.

(** A model message, then exchanges. *)
Definition conversation (ms : list Message) : bool :=
  match ms with
  | m :: rest => is_model m && exchanges rest
  | [] => false
  end.

(** The value of a hexadecimal digit. *)
Definition unhex (c : N) : N := (if is_digit c then c - 48 else c - 55)%N.

(** The bytes a form-urlencoded value stands for: [+] is a space, [%]
    and two digits a byte, anything else itself. *)
Fixpoint decode_bytes (s : jsstring) : list N :=
  match s with
  | [] => []
  | c :: s' =>
      if (c =? Char.plus)%N then Char.space :: decode_bytes s'
      else if (c =? Char.percent)%N then
        match s' with
        | h :: s'' =>
            match s'' with
            | l :: s''' => (16 * unhex h + unhex l)%N :: decode_bytes s'''
            | [] => []
            end
        | [] => []
        end
      else c :: decode_bytes s'
  end.

(** The UTF-8 bytes of a string. *)
Definition utf8_bytes_of (s : jsstring) : list N :=
  concat (utf8 <$> scalar_values s).

(** ** Replies and states of the conversation *)

Section Replies.

Variable JSON_stringify : obj → completion jsstring.
Variable interviewStartup :
  StartupInterviewerInput → completion StartupInterviewerOutput.
Variable analysisData : obj.

(** What the service answers to a request with that history, or the
    fallback text when serializing throws or the service rejects. *)
Definition reply_or (fallback : jsstring) (history : list Message)
    : jsstring :=
  match JSON_stringify analysisData with
  | Normal serialized =>
      match interviewStartup {| input_analysisData := serialized;
                                input_history := history |} with
      | Normal result => message result
      | Throw _ => fallback
      end
  | Throw _ => fallback
  end.

End Replies.

(** The states the component goes through: before the opening message
    has come, no history and the loading flag set; after it, a
    conversation and the flag cleared. *)
Definition settled (st : State) : Prop :=
  (messages st = [] ∧ isLoading st = true)
  ∨ (conversation (messages st) = true ∧ isLoading st = false).

(** * Facts and theorems *)

(** ** The patterns on examples *)

Example email_match_1 :
  String_match (js "mail a@x.com, B.c+d@Sub.example.org.") EMAIL_REGEX
  = Some [js "a@x.com"; js "B.c+d@Sub.example.org"].
Proof. vm_compute. reflexivity. Qed.

Example email_match_2 : String_match (js "a@b.c x@@y.zz") EMAIL_REGEX = None.
Proof. vm_compute. reflexivity. Qed.

Example email_match_3 :
  String_match (js "a@b.cd.e1") EMAIL_REGEX = Some [js "a@b.cd"].
Proof. vm_compute. reflexivity. Qed.

Example split_lines_1 :
  String_split (js "a" ++ [13; 10]%N ++ js "b" ++ [10; 10]%N ++ js "c" ++ [13]%N) LINE_BREAK false
  = [js "a"; js "b"; []; js "c" ++ [13]%N].
Proof. vm_compute. reflexivity. Qed.

Example split_emph_1 :
  String_split (js "**_bold_** text") EMPHASIS true
  = [[]; js "**_bold_**"; js " text"].
Proof. vm_compute. reflexivity. Qed.

Example replace_ws_1 :
  String_replace (js "Acme   Robotics" ++ [9; 10]%N ++ js "Inc") WS_RUN (js " ")
  = js "Acme Robotics Inc".
Proof. vm_compute. reflexivity. Qed.

(** ** Facts on the matcher *)

Lemma run_le p s : run p s ≤ length s.
Proof. induction s as [|c s IH]; simpl; [lia|]. destruct (p c); simpl; lia. Qed.

Lemma run_take p s j : j ≤ run p s → Forall (λ c, p c) (take j s).
Proof.
  revert j. induction s as [|c s IH]; intros j Hj; simpl in *.
  - rewrite take_nil. constructor.
  - destruct j as [|j]; [constructor|].
    destruct (p c) eqn:Hc; [|lia]. simpl. constructor.
    + by rewrite Hc.
    + apply IH. lia.
Qed.

Lemma counts_spec a s j :
  j ∈ counts a s →
  qmin a ≤ j ∧ j ≤ run (cls a) s ∧ ∀ h, qmax a = Some h → j ≤ h.
Proof.
  unfold counts. cbv zeta. intros Hj.
  assert (Hin : j ∈ seq (qmin a)
            (S (match qmax a with
                | Some h => Nat.min h (run (cls a) s)
                | None => run (cls a) s
                end) - qmin a)).
  { destruct (qmode a); [by rewrite elem_of_reverse in Hj|done]. }
  apply elem_of_seq in Hin. destruct (qmax a) as [h|].
  - split_and!; [lia..|]. intros h' [= <-]. lia.
  - split_and!; [lia..|]. intros h' [=].
Qed.

Lemma try_counts_Some k s js m :
  try_counts k s js = Some m →
  ∃ j m', j ∈ js ∧ k (drop j s) = Some m' ∧ m = j + m'.
Proof.
  induction js as [|j js IH]; simpl; [done|].
  destruct (k (drop j s)) as [m'|] eqn:Hk.
  - intros [= <-]. exists j, m'. split_and!; [left|done..].
  - intros H. destruct (IH H) as (j' & m' & ? & ? & ?).
    exists j', m'. split_and!; [by right|done..].
Qed.

Lemma match_here_sound r s m :
  match_here r s = Some m → m ≤ length s ∧ matches r (take m s).
Proof.
  revert s m. induction r as [|a r IH]; intros s m; simpl.
  - intros [= <-]. split; [lia|]. by rewrite take_0.
  - intros H. apply try_counts_Some in H as (j & m' & Hj & Hk & ->).
    apply counts_spec in Hj as (Hmin & Hrun & Hmax).
    apply IH in Hk as [Hle Hm]. rewrite length_drop in Hle.
    pose proof (run_le (cls a) s).
    split; [lia|].
    exists (take j s), (take m' (drop j s)). split_and!.
    + by rewrite take_take_drop.
    + by apply run_take.
    + rewrite length_take. lia.
    + intros h Hh. rewrite length_take. specialize (Hmax h Hh). lia.
    + done.
Qed.

(** Every match of a global search is a word of the pattern. *)
Lemma match_all_go_sound r s skip x :
  x ∈ match_all_go r s skip → matches r x.
Proof.
  revert skip. induction s as [|c s IH]; intros skip; simpl.
  - destruct skip; simpl; [|by intros ?%elem_of_nil].
    destruct (match_here r []) as [m|] eqn:Hm; [|by intros ?%elem_of_nil].
    intros ->%list_elem_of_singleton.
    by apply match_here_sound in Hm as [_ ?].
  - destruct skip as [|k]; simpl; [|apply IH].
    destruct (match_here r (c :: s)) as [m|] eqn:Hm; [|apply IH].
    intros [->|Hx]%elem_of_cons; [|by eapply IH].
    by apply match_here_sound in Hm as [_ ?].
Qed.

(** ** The shape of an email match *)

Lemma Forall_lit ch u :
  Forall (λ c, (ch =? c)%N) u → 1 ≤ length u → length u ≤ 1 → u = [ch].
Proof.
  destruct u as [|c [|??]]; simpl; try lia. intros Hc _ _.
  apply Forall_cons in Hc as [Hc _]. apply Is_true_true, N.eqb_eq in Hc.
  by subst.
Qed.

Lemma matches_email_shape x : matches EMAIL_REGEX x ↔ email_shape x.
Proof.
  split.
  - intros (l & v1 & -> & Hl & Hl1 & _ & a & v2 & -> & Ha & Ha1 & Ha2
            & d & v3 & -> & Hd & Hd1 & _ & b & v4 & -> & Hb & Hb1 & Hb2
            & t & e & -> & Ht & Ht2 & _ & ->).
    unfold lit, plus, at_least in *. cbn [cls qmin qmax] in *.
    apply Forall_lit in Ha; [|done|by apply Ha2]. subst a.
    apply Forall_lit in Hb; [|done|by apply Hb2]. subst b.
    exists l, d, t. rewrite app_nil_r. simpl. split_and!; try done.
    + intros ->. simpl in Hl1. lia.
    + intros ->. simpl in Hd1. lia.
  - intros (l & d & t & -> & Hl0 & Hl & Hd0 & Hd & Ht2 & Ht).
    exists l, (Char.at_sign :: d ++ Char.dot :: t). split_and!; try done.
    { destruct l; [done|simpl; lia]. }
    exists [Char.at_sign], (d ++ Char.dot :: t). simpl. split_and!; try done.
    { by repeat constructor. }
    { by intros h [= <-]. }
    exists d, (Char.dot :: t). split_and!; try done.
    { destruct d; [done|simpl; lia]. }
    exists [Char.dot], t. simpl. split_and!; try done.
    { by repeat constructor. }
    { by intros h [= <-]. }
    exists t, []. rewrite app_nil_r. by split_and!.
Qed.

Ltac unfold_classes :=
  unfold local_class, domain_class, is_alpha_ci, is_ws, is_line_terminator,
    is_upper, is_lower, is_digit, between,
    Char.dot, Char.underscore, Char.percent, Char.plus, Char.minus,
    Char.at_sign in *.

Ltac bool_to_prop :=
  repeat first
    [ rewrite orb_true_iff in * | rewrite andb_true_iff in *
    | rewrite orb_false_iff in * | rewrite andb_false_iff in *
    | rewrite N.leb_le in * | rewrite N.leb_gt in *
    | rewrite N.eqb_eq in * | rewrite N.eqb_neq in *
    | rewrite N.ltb_lt in * | rewrite N.ltb_ge in * ].

Lemma local_class_ascii c :
  local_class c = true → is_ws c = false ∧ (c < 128)%N ∧ c ≠ Char.at_sign.
Proof. unfold_classes. intros H. bool_to_prop. lia. Qed.

Lemma domain_class_local c : domain_class c = true → local_class c = true.
Proof. unfold_classes. intros H. bool_to_prop. lia. Qed.

Lemma is_alpha_ci_domain c : is_alpha_ci c = true → domain_class c = true.
Proof. unfold_classes. intros H. bool_to_prop. lia. Qed.

Lemma email_shape_chars x :
  email_shape x → Forall (λ c, local_class c = true ∨ c = Char.at_sign) x.
Proof.
  intros (l & d & t & -> & _ & Hl & _ & Hd & _ & Ht).
  rewrite Forall_app, Forall_cons, Forall_app, Forall_cons. split_and!.
  - eapply Forall_impl; [done|]. intros c Hc. left. by apply Is_true_true.
  - by right.
  - eapply Forall_impl; [done|]. intros c Hc. left.
    by apply domain_class_local, Is_true_true.
  - by left.
  - eapply Forall_impl; [done|]. intros c Hc. left.
    by apply domain_class_local, is_alpha_ci_domain, Is_true_true.
Qed.

Lemma email_shape_nonempty x : email_shape x → x ≠ [].
Proof. intros (l & d & t & -> & ? & _). by destruct l. Qed.

Lemma email_shape_no_ws x : email_shape x → Forall (λ c, is_ws c = false) x.
Proof.
  intros H%email_shape_chars. eapply Forall_impl; [done|].
  intros c [Hc| ->]; [by apply local_class_ascii|done].
Qed.

Lemma email_shape_ascii x : email_shape x → Forall (λ c, (c < 128)%N) x.
Proof.
  intros H%email_shape_chars. eapply Forall_impl; [done|].
  intros c [Hc| ->]; [by apply local_class_ascii|done].
Qed.

Lemma filter_at_none (l : jsstring) :
  Forall (λ c, local_class c) l → filter (λ c, c = Char.at_sign) l = [].
Proof.
  induction 1 as [|c l Hc _ IH]; [done|].
  rewrite filter_cons_False; [done|].
  apply Is_true_true, local_class_ascii in Hc. tauto.
Qed.

Lemma email_shape_one_at x :
  email_shape x → length (filter (λ c, c = Char.at_sign) x) = 1.
Proof.
  intros (l & d & t & -> & _ & Hl & _ & Hd & _ & Ht).
  rewrite filter_app, filter_cons_True by done.
  rewrite filter_app, filter_cons_False by done.
  rewrite !filter_at_none; [done|..|done].
  - eapply Forall_impl; [done|]. intros c Hc.
    by apply Is_true_true, domain_class_local, is_alpha_ci_domain, Is_true_true.
  - eapply Forall_impl; [done|]. intros c Hc.
    by apply Is_true_true, domain_class_local, Is_true_true.
Qed.

(** ** Facts on [trim] *)

Lemma trimStart_id s : Forall (λ c, is_ws c = false) s → trimStart s = s.
Proof. destruct 1 as [|c s Hc _]; simpl; [done|]. by rewrite Hc. Qed.

Lemma trim_id s : Forall (λ c, is_ws c = false) s → trim s = s.
Proof.
  intros H. unfold trim, trimEnd. rewrite (trimStart_id s) by done.
  rewrite trimStart_id; [by rewrite reverse_involutive|].
  by apply Forall_reverse.
Qed.

(** ** Induction on values *)

Lemma jsvalue_nested_ind (P : jsvalue → Prop) :
  P VUndefined → P VNull → (∀ b, P (VBool b)) → (∀ n, P (VNum n)) →
  (∀ s, P (VStr s)) →
  (∀ items, Forall P items → P (VArr items)) →
  (∀ fields, Forall (λ kv, P kv.2) fields → P (VObj fields)) →
  ∀ v, P v.
Proof.
  intros Hu Hn Hb Hz Hs Ha Ho. fix IH 1. intros [| |b|n|s|items|fields].
  - exact Hu.
  - exact Hn.
  - apply Hb.
  - apply Hz.
  - apply Hs.
  - apply Ha. induction items as [|v items IHi]; constructor; [apply IH|exact IHi].
  - apply Ho. induction fields as [|[k v] fields IHf]; constructor;
      [apply IH|exact IHf].
Qed.

(** ** The emails of a value, in visiting order *)

Lemma emails_in_shape v x : x ∈ emails_in v → email_shape x.
Proof.
  revert x. induction v as [| |b|n|s|items IH|fields IH] using jsvalue_nested_ind;
    intros x; simpl; try by intros ?%elem_of_nil.
  - by destruct b; intros ?%elem_of_nil.
  - by destruct (negb _); intros ?%elem_of_nil.
  - destruct (negb _); [by intros ?%elem_of_nil|].
    intros H. eapply matches_email_shape, match_all_go_sound, H.
  - intros (v & Hx & Hv)%list_elem_of_In%in_flat_map.
    rewrite Forall_forall in IH. apply (IH v); by apply list_elem_of_In.
  - intros (v & Hx & Hv)%list_elem_of_In%in_flat_map.
    rewrite Forall_forall in IH. apply (IH v); by apply list_elem_of_In.
Qed.

Lemma foldl_flat_map {A B St} (f : A → St → St) (g : St → B → St)
    (h : A → list B) (l : list A) (st : St) :
  Forall (λ a, ∀ st, f a st = foldl g st (h a)) l →
  foldl (λ st a, f a st) st l = foldl g st (flat_map h l).
Proof.
  intros H. revert st. induction H as [|a l Ha _ IH]; intros st; simpl; [done|].
  by rewrite foldl_app, Ha, IH.
Qed.

(** [collectEmails] calls [push] on the emails of the value, in order. *)
Lemma collectEmails_emails_in {St} (push : jsstring → St → St) v st :
  collectEmails v push st = foldl (λ st x, push x st) st (emails_in v).
Proof.
  revert st.
  induction v as [| |b|n|s|items IH|fields IH] using jsvalue_nested_ind;
    intros st; simpl; try done.
  - by destruct b.
  - by destruct (negb _).
  - destruct s as [|c s]; [done|]. unfold String_match. cbn [truthy negb].
    cbv iota.
    assert (Hall : Forall email_shape (match_all EMAIL_REGEX (c :: s))).
    { apply Forall_forall. intros x Hx.
      by apply matches_email_shape, (match_all_go_sound _ (c :: s) 0). }
    destruct (match_all EMAIL_REGEX (c :: s)) as [|m ms] eqn:Hms; [done|].
    clear Hms. revert st. generalize (m :: ms) Hall. clear.
    intros l Hl. induction Hl as [|x l Hx _ IH]; intros st; simpl; [done|].
    rewrite trim_id by by apply email_shape_no_ws.
    destruct x; [by apply email_shape_nonempty in Hx|]. apply IH.
  - by apply foldl_flat_map.
  - by apply (foldl_flat_map (λ kv : jsstring * jsvalue, collectEmails kv.2 push)).
Qed.

(** ** First occurrences under case-insensitive comparison *)

Lemma dedup_from_first_occurrences keys l :
  dedup_from keys l
  = filter (λ y, toLowerCase y ∉ keys) (first_occurrences l).
Proof.
  revert keys. induction l as [|x l IH]; intros keys; simpl; [done|].
  destruct (decide (toLowerCase x ∈ keys)) as [Hin|Hin].
  - rewrite filter_cons_False by tauto.
    rewrite IH, list_filter_filter. apply list_filter_iff.
    intros y. split; [|tauto]. intros Hy. split; [done|]. congruence.
  - rewrite filter_cons_True by done. f_equal.
    rewrite IH, list_filter_filter. apply list_filter_iff.
    intros y. rewrite not_elem_of_app, list_elem_of_singleton. tauto.
Qed.

Lemma first_occurrences_sublist l : first_occurrences l `sublist_of` l.
Proof.
  induction l as [|x l IH]; simpl; [done|].
  apply sublist_skip. etrans; [apply sublist_filter|done].
Qed.

Lemma first_occurrences_keys l x :
  x ∈ l → toLowerCase x ∈ toLowerCase <$> first_occurrences l.
Proof.
  induction l as [|a l IH]; [by intros ?%elem_of_nil|].
  intros [->|Hx]%elem_of_cons; simpl; [left|].
  destruct (decide (toLowerCase x = toLowerCase a)) as [->|Hne]; [left|].
  right. apply IH in Hx. apply list_elem_of_fmap in Hx as (y & Hy & Hin).
  apply list_elem_of_fmap. exists y. split; [done|].
  apply list_elem_of_filter. split; [congruence|done].
Qed.

Lemma first_occurrences_NoDup l : NoDup (toLowerCase <$> first_occurrences l).
Proof.
  induction l as [|a l IH]; simpl; [constructor|]. constructor.
  - intros (y & Hy & Hin%list_elem_of_filter)%list_elem_of_fmap.
    destruct Hin as [Hne _]. congruence.
  - apply (sublist_NoDup _ (toLowerCase <$> first_occurrences l)); [exact IH|].
    apply fmap_sublist, sublist_filter.

Qed.

Lemma filter_all {A} (P : A → Prop) `{!∀ x, Decision (P x)} (l : list A) :
  Forall P l → filter P l = l.
Proof.
  induction 1 as [|x l Hx _ IH]; [done|]. by rewrite filter_cons_True, IH.
Qed.

Lemma first_occurrences_app l1 l2 :
  first_occurrences (l1 ++ l2)
  = first_occurrences l1
    ++ filter (λ y, toLowerCase y ∉ toLowerCase <$> l1) (first_occurrences l2).
Proof.
  induction l1 as [|a l1 IH]; simpl.
  - symmetry. apply filter_all, Forall_forall. by intros y _ ?%elem_of_nil.
  - f_equal. rewrite IH, filter_app. f_equal.
    rewrite list_filter_filter. apply list_filter_iff.
    intros y. rewrite not_elem_of_cons. tauto.
Qed.

(** An element of the result stands in the input before any other
    address with its key. *)
Lemma first_occurrences_first l x :
  x ∈ first_occurrences l →
  ∃ l1 l2, l = l1 ++ x :: l2 ∧ toLowerCase x ∉ toLowerCase <$> l1.
Proof.
  induction l as [|a l IH]; simpl; [by intros ?%elem_of_nil|].
  intros [->|[Hne Hx]%list_elem_of_filter]%elem_of_cons.
  - exists [], l. split; [done|]. by intros ?%elem_of_nil.
  - destruct (IH Hx) as (l1 & l2 & -> & Hl1). exists (a :: l1), l2.
    split; [done|]. rewrite fmap_cons, not_elem_of_cons. split; [congruence|done].
Qed.

(** ** The loop of [push] *)

Lemma email_shape_pushable x : email_shape x → pushable x.
Proof.
  intros H. split; [by apply trim_id, email_shape_no_ws|].
  by apply email_shape_nonempty.
Qed.

Lemma push_fold st l :
  harvest_inv st → Forall pushable l →
  harvest_inv (foldl (λ st x, push x st) st l)
  ∧ ordered (foldl (λ st x, push x st) st l)
    = ordered st ++ dedup_from (toLowerCase <$> ordered st) l.
Proof.
  intros Hinv Hl. revert st Hinv.
  induction Hl as [|x l [Hx Hx0] _ IH]; intros st Hinv; simpl.
  - by rewrite app_nil_r.
  - unfold push at 2 4. rewrite Hx. destruct x as [|c x]; [done|].
    destruct (decide (toLowerCase (c :: x) ∈ toLowerCase <$> ordered st))
      as [Hin|Hin].
    + rewrite bool_decide_true by by apply Hinv. by apply IH.
    + rewrite bool_decide_false by by rewrite (Hinv _).
      set (st' := {| seen := _; ordered := _ |}).
      assert (Hinv' : harvest_inv st').
      { intros k. subst st'. simpl. rewrite elem_of_union, elem_of_singleton.
        rewrite fmap_app, elem_of_app, (Hinv k). simpl.
        rewrite list_elem_of_singleton. tauto. }
      destruct (IH st' Hinv') as [? ->]. split; [done|].
      subst st'. simpl. by rewrite fmap_app, <-app_assoc.
Qed.

(** ** The harvest *)

Lemma harvest_falsy v st : truthy v = false → harvest v st = st.
Proof. intros H. unfold harvest. destruct v; simpl in *; by rewrite ?H. Qed.

Lemma get_falsy v k : truthy v = false → get v k = VUndefined.
Proof. by destruct v. Qed.

Lemma founderEmails_fold analysisData publicData :
  founderEmails analysisData publicData
  = ordered (foldl (λ st v, harvest v st) {| seen := ∅; ordered := [] |}
               (six_sources analysisData publicData)).
Proof.
  unfold founderEmails, six_sources. cbn [foldl].
  destruct (truthy (field analysisData (js "metadata"))) eqn:Hm; [done|].
  by rewrite !(get_falsy _ _ Hm), !(harvest_falsy VUndefined).
Qed.

Lemma founderEmails_first_occurrences analysisData publicData :
  founderEmails analysisData publicData
  = first_occurrences (discovered analysisData publicData).
Proof.
  rewrite founderEmails_fold. unfold discovered.
  rewrite (foldl_flat_map harvest (λ st x, push x st) emails_in).
  2:{ apply Forall_forall. intros v _ st. apply collectEmails_emails_in. }
  edestruct push_fold as [_ ->].
  - intros k. simpl. split; [by intros ?%elem_of_empty|by intros ?%elem_of_nil].
  - apply Forall_forall. intros x (v & _ & Hx)%list_elem_of_In%in_flat_map.
    by apply email_shape_pushable, (emails_in_shape v), list_elem_of_In.
  - simpl. rewrite dedup_from_first_occurrences. apply filter_all.
    apply Forall_forall. by intros y _ ?%elem_of_nil.
Qed.

Lemma precedes_app x y (l1 l2 : list jsstring) :
  x ∈ l1 → y ∈ l2 → precedes x y (l1 ++ l2).
Proof.
  intros [i Hi]%list_elem_of_lookup [j Hj]%list_elem_of_lookup.
  exists i, (length l1 + j). split_and!.
  - by apply lookup_app_l_Some.
  - by rewrite lookup_app_r, Nat.add_comm, Nat.add_sub by lia.
  - apply lookup_lt_Some in Hi. lia.
Qed.

Lemma elem_of_flat_map_take (srcs : list jsvalue) j x :
  x ∈ flat_map emails_in (take j srcs) ↔ ∃ k, k < j ∧ found_in srcs k x.
Proof.
  rewrite list_elem_of_In, in_flat_map. split.
  - intros (v & Hv%list_elem_of_In%list_elem_of_lookup & Hx%list_elem_of_In).
    destruct Hv as [k Hk]. apply lookup_take_Some in Hk as [Hk Hlt].
    exists k. split; [done|]. by exists v.
  - intros (k & Hlt & v & Hk & Hx). exists v. split.
    + apply list_elem_of_In, list_elem_of_lookup. exists k.
      by apply lookup_take_Some.
    + by apply list_elem_of_In.
Qed.

Lemma source_order (srcs : list jsvalue) i j x y :
  let out := first_occurrences (flat_map emails_in srcs) in
  i < j → found_in srcs i x → found_in srcs j y → new_in srcs j y →
  x ∈ out → y ∈ out → precedes x y out.
Proof.
  intros out Hij Hx Hy Hnew. subst out.
  rewrite <-(take_drop j srcs) at 1 2 3. rewrite flat_map_app.
  rewrite first_occurrences_app.
  assert (Hkx : toLowerCase x ∈ toLowerCase <$> flat_map emails_in (take j srcs)).
  { apply list_elem_of_fmap. exists x. split; [done|].
    apply elem_of_flat_map_take. by exists i. }
  assert (Hky : toLowerCase y ∉ toLowerCase <$> flat_map emails_in (take j srcs)).
  { intros (z & Hz & (k & Hk & v & Hv & Hin)%elem_of_flat_map_take)%list_elem_of_fmap.
    apply (Hnew k v Hk Hv). rewrite Hz. apply list_elem_of_fmap. by exists z. }
  intros [Hox|[Hox _]%list_elem_of_filter]%elem_of_app; [|done].
  intros [Hoy|Hoy]%elem_of_app; [|by apply precedes_app].
  exfalso. apply Hky, list_elem_of_fmap. exists y. split; [done|].
  eapply elem_of_sublist; [done|]. apply first_occurrences_sublist.
Qed.

(** ** Whitespace runs and words *)

Lemma match_here_plus p s :
  match_here [plus p] s
  = match run p s with O => None | S k => Some (S k) end.
Proof.
  unfold match_here, counts, plus. cbn [cls qmin qmax qmode].
  destruct (run p s) as [|k]; [done|].
  replace (S (S k) - 1) with (S k) by lia.
  rewrite seq_S, reverse_app. simpl. by rewrite Nat.add_0_r.
Qed.

Lemma replace_go_collapse s :
  replace_go WS_RUN [Char.space] s 0 = collapse false s
  ∧ replace_go WS_RUN [Char.space] s (run is_ws s) = collapse true s.
Proof.
  induction s as [|c s [IH0 IH1]].
  - by cbn.
  - cbn [run collapse]. destruct (is_ws c) eqn:Hc.
    + split.
      * cbn [replace_go]. unfold WS_RUN. rewrite match_here_plus.
        cbn [run]. rewrite Hc. cbn [pred]. fold WS_RUN. by rewrite IH1.
      * cbn [replace_go]. by rewrite IH1.
    + assert (H : replace_go WS_RUN [Char.space] (c :: s) 0
                  = c :: collapse false s).
      { cbn [replace_go]. unfold WS_RUN. rewrite match_here_plus.
        cbn [run]. rewrite Hc. fold WS_RUN. by rewrite <-IH0. }
      done.
Qed.

Lemma String_replace_collapse s :
  String_replace s WS_RUN [Char.space] = collapse false s.
Proof. apply replace_go_collapse. Qed.

Lemma words_go_all_ws cur s :
  all_ws s → words_go cur s = if cur is [] then [] else [reverse cur].
Proof.
  intros H. revert cur. induction H as [|c s Hc _ IH]; intros cur; [done|].
  simpl. rewrite Hc, IH. by destruct cur.
Qed.

Lemma words_go_nonempty cur s : cur ≠ [] → words_go cur s ≠ [].
Proof.
  revert cur. induction s as [|c s IH]; intros cur Hcur; simpl.
  - by destruct cur.
  - destruct (is_ws c); [by destruct cur|]. by apply IH.
Qed.

Lemma words_go_cons cur c s :
  words_go cur (c :: s)
  = if is_ws c
    then (if cur is [] then [] else [reverse cur]) ++ words_go [] s
    else words_go (c :: cur) s.
Proof. done. Qed.

Lemma words_trimStart s : words (trimStart s) = words s.
Proof.
  unfold words. induction s as [|c s IH]; [done|]. simpl.
  destruct (is_ws c) eqn:Hc; [done|]. simpl. by rewrite Hc.
Qed.

Lemma trimStart_snoc l c :
  trimStart (l ++ [c])
  = match trimStart l with
    | [] => if is_ws c then [] else [c]
    | r => r ++ [c]
    end.
Proof.
  induction l as [|a l IH]; simpl; [by destruct (is_ws c)|].
  destruct (is_ws a); [done|]. done.
Qed.

Lemma trimEnd_cons c s :
  trimEnd (c :: s)
  = match trimEnd s with
    | [] => if is_ws c then [] else [c]
    | r => c :: r
    end.
Proof.
  unfold trimEnd. rewrite reverse_cons, trimStart_snoc.
  destruct (trimStart (reverse s)) as [|a r] eqn:Hr.
  - rewrite reverse_nil. by destruct (is_ws c).
  - rewrite reverse_app, reverse_singleton. simpl.
    destruct (reverse (a :: r)) eqn:Hrev; [|done].
    apply (f_equal reverse) in Hrev. by rewrite reverse_involutive in Hrev.
Qed.

Lemma trimEnd_nil_all_ws s : trimEnd s = [] → all_ws s.
Proof.
  induction s as [|c s IH]; [constructor|]. rewrite trimEnd_cons.
  destruct (trimEnd s); [|done]. destruct (is_ws c) eqn:Hc; [|done].
  intros _. constructor; [done|]. by apply IH.
Qed.

Lemma words_go_trimEnd cur s : words_go cur (trimEnd s) = words_go cur s.
Proof.
  revert cur. induction s as [|c s IH]; intros cur; [done|].
  rewrite trimEnd_cons. destruct (trimEnd s) as [|a r] eqn:Hr.
  - apply trimEnd_nil_all_ws in Hr. simpl. destruct (is_ws c) eqn:Hc.
    + rewrite (words_go_all_ws [] s Hr). by rewrite app_nil_r.
    + simpl. rewrite Hc. by rewrite (words_go_all_ws _ s Hr).
  - rewrite !(words_go_cons _ c). destruct (is_ws c); by rewrite IH.
Qed.

Lemma words_trim s : words (trim s) = words s.
Proof. unfold words, trim. by rewrite words_go_trimEnd, words_trimStart. Qed.

Lemma trimEnd_no_trailing_ws s : no_trailing_ws (trimEnd s).
Proof.
  unfold trimEnd. intros s' c Hs. apply (f_equal reverse) in Hs.
  rewrite reverse_involutive, reverse_app, reverse_singleton in Hs. simpl in Hs.
  revert Hs. generalize (reverse s). intros l. induction l as [|a l IH]; [done|].
  simpl. destruct (is_ws a) eqn:Ha; [done|]. by intros [= -> _].
Qed.

Lemma trimStart_head s c t : trimStart s = c :: t → is_ws c = false.
Proof.
  induction s as [|a s IH]; [done|]. simpl. destruct (is_ws a) eqn:Ha; [done|].
  by intros [= -> _].
Qed.

Lemma trim_head s c t : trim s = c :: t → is_ws c = false.
Proof.
  unfold trim. destruct (trimStart s) as [|a r] eqn:Hs; [done|].
  apply trimStart_head in Hs. rewrite trimEnd_cons.
  destruct (trimEnd r); [destruct (is_ws a) eqn:?; [done|]|]; by intros [= <- _].
Qed.

Lemma no_trailing_ws_tail c s : no_trailing_ws (c :: s) → no_trailing_ws s.
Proof. intros H s' x ->. by apply (H (c :: s') x). Qed.

Lemma words_go_no_trailing cur s :
  no_trailing_ws s → s ≠ [] → words_go cur s ≠ [].
Proof.
  revert cur. induction s as [|c s IH]; intros cur Hs Hne; [done|].
  rewrite words_go_cons. destruct (is_ws c) eqn:Hc.
  - destruct s as [|c' s].
    + by rewrite (Hs [] c) in Hc.
    + intros [_ H]%app_eq_nil. revert H.
      apply IH; [by eapply no_trailing_ws_tail|done].
  - by apply words_go_nonempty.
Qed.

Lemma join_cons sep x (l : list jsstring) :
  l ≠ [] → join sep (x :: l) = x ++ sep ++ join sep l.
Proof. by destruct l. Qed.

Lemma collapse_join s :
  no_trailing_ws s →
  join [Char.space] (words_go [] s) = collapse true s
  ∧ ∀ cur, cur ≠ [] →
      join [Char.space] (words_go cur s) = reverse cur ++ collapse false s.
Proof.
  induction s as [|c s IH]; intros Hs.
  - split; [done|]. intros cur Hcur. simpl. rewrite app_nil_r. by destruct cur.
  - destruct (IH (no_trailing_ws_tail _ _ Hs)) as [IH1 IH2].
    rewrite !words_go_cons. cbn [collapse]. destruct (is_ws c) eqn:Hc.
    + assert (Hne : words_go [] s ≠ []).
      { apply words_go_no_trailing; [by eapply no_trailing_ws_tail|].
        intros ->. by rewrite (Hs [] c) in Hc. }
      split; [done|]. intros cur Hcur. rewrite words_go_cons, Hc.
      destruct cur as [|a cur]; [done|]. cbn [app].
      by rewrite join_cons, IH1.
    + split.
      * by rewrite IH2.
      * intros cur Hcur. rewrite words_go_cons, Hc, IH2 by done.
        by rewrite reverse_cons, <-app_assoc.
Qed.

Lemma words_go_nonws cur s :
  Forall (λ c, is_ws c = false) cur →
  Forall (Forall (λ c, is_ws c = false)) (words_go cur s).
Proof.
  revert cur. induction s as [|c s IH]; intros cur Hcur; simpl.
  - destruct cur; [constructor|]. repeat constructor. by apply Forall_reverse.
  - destruct (is_ws c) eqn:Hc.
    + apply Forall_app. split; [|by apply IH].
      destruct cur; [constructor|]. repeat constructor. by apply Forall_reverse.
    + apply IH. by constructor.
Qed.

Lemma words_go_pieces cur s : Forall (λ w, w ≠ []) (words_go cur s).
Proof.
  revert cur. induction s as [|c s IH]; intros cur; simpl.
  - destruct cur as [|a cur]; repeat constructor.
    intros H%(f_equal length). rewrite length_reverse in H. done.
  - destruct (is_ws c); [|apply IH]. apply Forall_app. split; [|apply IH].
    destruct cur as [|a cur]; repeat constructor.
    intros H%(f_equal length). rewrite length_reverse in H. done.
Qed.

Lemma words_go_concat cur s :
  concat (words_go cur s) = reverse cur ++ filter (λ c, is_ws c = false) s.
Proof.
  revert cur. induction s as [|c s IH]; intros cur; simpl.
  - destruct cur; [done|]. simpl. by rewrite !app_nil_r.
  - destruct (is_ws c) eqn:Hc.
    + rewrite filter_cons_False by by rewrite Hc.
      rewrite concat_app, IH. destruct cur; [done|]. simpl.
      by rewrite app_nil_r.
    + rewrite filter_cons_True by done. rewrite IH, reverse_cons.
      by rewrite <-app_assoc.
Qed.

(** The words are the runs the name says: none is empty, none holds
    whitespace, and together they are the rest of the string in order. *)
Lemma words_spec s :
  Forall (λ w, w ≠ [] ∧ Forall (λ c, is_ws c = false) w) (words s)
  ∧ concat (words s) = filter (λ c, is_ws c = false) s.
Proof.
  split; [|apply words_go_concat]. apply Forall_and. split.
  - apply words_go_pieces.
  - apply words_go_nonws. constructor.
Qed.

Lemma split_char_ne sep s : split_char sep s ≠ [].
Proof.
  destruct s as [|c s]; simpl; [done|].
  destruct (c =? sep)%N; [done|]. by destruct (split_char sep s).
Qed.

Lemma split_char_app sep w r :
  Forall (λ c, c ≠ sep) w →
  split_char sep (w ++ sep :: r) = w :: split_char sep r.
Proof.
  induction 1 as [|c w Hc _ IH]; simpl.
  - by rewrite N.eqb_refl.
  - apply N.eqb_neq in Hc. by rewrite Hc, IH.
Qed.

Lemma split_char_word sep w :
  Forall (λ c, c ≠ sep) w → split_char sep w = [w].
Proof.
  induction 1 as [|c w Hc _ IH]; simpl; [done|].
  apply N.eqb_neq in Hc. by rewrite Hc, IH.
Qed.

Lemma split_char_join sep (ws : list jsstring) :
  Forall (Forall (λ c, c ≠ sep)) ws → ws ≠ [] →
  split_char sep (join [sep] ws) = ws.
Proof.
  induction 1 as [|w ws Hw Hws IH]; intros Hne; [done|].
  destruct ws as [|w' ws].
  - by apply split_char_word.
  - rewrite join_cons by done. cbn [app].
    rewrite split_char_app by done. by rewrite IH.
Qed.

Lemma words_no_space s : Forall (Forall (λ c, c ≠ Char.space)) (words s).
Proof.
  eapply Forall_impl; [apply words_go_nonws; constructor|].
  intros w Hw. eapply Forall_impl; [done|]. by intros c Hc ->.
Qed.

Lemma trim_nil_words s : trim s = [] ↔ words s = [].
Proof.
  rewrite <-words_trim. split; [by intros ->|].
  destruct (trim s) as [|c t] eqn:Ht; [done|].
  apply trim_head in Ht. unfold words. rewrite words_go_cons, Ht.
  intros H. by apply words_go_nonempty in H.
Qed.

Lemma normalized_words s :
  trim s ≠ [] →
  String_replace (trim s) WS_RUN [Char.space] = join [Char.space] (words s).
Proof.
  intros Hne. rewrite String_replace_collapse, <-words_trim.
  assert (Hnt : no_trailing_ws (trim s)) by apply trimEnd_no_trailing_ws.
  destruct (trim s) as [|c t] eqn:Ht; [done|].
  apply trim_head in Ht. unfold words. rewrite words_go_cons. cbn [collapse].
  rewrite Ht. apply no_trailing_ws_tail in Hnt.
  destruct (collapse_join t Hnt) as [_ ->]; done.
Qed.

(** [sanitizeProductName] in terms of the words of its argument. *)
Lemma sanitizeProductName_words value :
  sanitizeProductName value
  = let normalized := join [Char.space] (words value) in
    if decide (words value = [] ∨ 60 < length normalized
               ∨ 6 < length (words value))
    then None else Some normalized.
Proof.
  unfold sanitizeProductName. cbv zeta.
  destruct (trim value) as [|c t] eqn:Ht.
  - apply trim_nil_words in Ht. rewrite decide_True; [done|by left].
  - assert (Hne : words value ≠ []).
    { intros H%trim_nil_words. by rewrite H in Ht. }
    rewrite <-Ht, normalized_words by by rewrite Ht.
    rewrite split_char_join by (done || apply words_no_space).
    destruct (60 <? _) eqn:H60; simpl.
    + apply Nat.ltb_lt in H60. rewrite decide_True; [done|tauto].
    + apply Nat.ltb_ge in H60. destruct (6 <? _) eqn:H6.
      * apply Nat.ltb_lt in H6. rewrite decide_True; [done|tauto].
      * apply Nat.ltb_ge in H6. rewrite decide_False; [done|].
        intros [?|[?|?]]; [done|lia..].
Qed.

(** ** Identity resolution *)

Lemma or_else_pure (a b : jsstring) :
  (Normal a ||| Normal b) = Normal (or_str a b).
Proof. by destruct a. Qed.

Lemma or_str_nonempty_r a b : b ≠ [] → or_str a b ≠ [].
Proof. by destruct a. Qed.

Lemma namesMeta_Normal analysisData :
  namesMeta analysisData = Normal (names_of analysisData).
Proof. done. Qed.

Lemma member_names analysisData k :
  member (names_of analysisData) k = Normal (get (names_of analysisData) k).
Proof.
  unfold names_of.
  by destruct (get (field analysisData (js "metadata")) (js "names")).
Qed.

Ltac run_completion :=
  rewrite ?namesMeta_Normal; cbn [mbind completion_bind];
  rewrite ?member_names; unfold company_overview_member; unfold opt_member;
  cbn [fmap completion_fmap mbind completion_bind mret completion_ret];
  rewrite ?or_else_pure.

Lemma companyName_Normal analysisData :
  companyName analysisData
  = Normal
      (or_str (or_str (or_str
         (coerce (get (names_of analysisData) (js "company")))
         (coerce (get (field analysisData (js "metadata")) (js "company_legal_name"))))
         (coerce (get (field analysisData (js "metadata")) (js "company_name"))))
         (coerce (get (overview_of analysisData) (js "name")))).
Proof. unfold companyName. by run_completion. Qed.

Lemma rawProductName_Normal analysisData :
  rawProductName analysisData
  = Normal
      (or_str
         (coerce (get (names_of analysisData) (js "product")))
         (coerce (get (field analysisData (js "metadata")) (js "product_name")))).
Proof.
  unfold rawProductName. run_completion. f_equal.
  unfold or_str. by repeat case_match.
Qed.

Lemma memoProductCandidate_Normal analysisData :
  memoProductCandidate analysisData
  = Normal (coerce (get (overview_of analysisData) (js "technology"))).
Proof. done. Qed.

Lemma sanitize_nonempty value n : sanitizeProductName value = Some n → n ≠ [].
Proof.
  unfold sanitizeProductName. destruct (trim value) as [|c t] eqn:Ht; [done|].
  rewrite String_replace_collapse. cbn [collapse].
  rewrite (trim_head _ _ _ Ht). by case_match; [|intros [= <-]].
Qed.

Lemma or_undefined_sanitize value b :
  or_undefined (sanitizeProductName value) b
  = match sanitizeProductName value with Some n => Some n | None => b end.
Proof.
  destruct (sanitizeProductName value) as [n|] eqn:H; [|done].
  apply sanitize_nonempty in H. by destruct n.
Qed.

Lemma productName_Normal analysisData :
  productName analysisData = Normal (product_of analysisData).
Proof.
  unfold productName, product_of.
  rewrite rawProductName_Normal, memoProductCandidate_Normal.
  cbn [mbind completion_bind mret completion_ret]. f_equal.
  rewrite or_undefined_sanitize. by repeat case_match.
Qed.

Lemma displayName_Normal analysisData :
  ∃ c d, companyName analysisData = Normal c
    ∧ displayName analysisData
      = Normal
          (or_str (or_str (or_str (or_str
             (coerce (get (names_of analysisData) (js "display")))
             (coerce (get (field analysisData (js "metadata")) (js "display_name"))))
             c)
             (default [] (product_of analysisData)))
             (js "the company"))
    ∧ displayName analysisData = Normal d ∧ d ≠ [].
Proof.
  eexists _, _. split; [apply companyName_Normal|].
  unfold displayName. rewrite companyName_Normal, productName_Normal.
  run_completion. split_and!; [done..|].
  by apply or_str_nonempty_r.
Qed.

(** ** Matching an email match again *)

Lemma run_app_all p u v :
  Forall (λ c, p c = true) u → run p (u ++ v) = length u + run p v.
Proof. induction 1 as [|c u Hc _ IH]; simpl; [done|]. by rewrite Hc, IH. Qed.

Lemma run_head_false p c s : p c = false → run p (c :: s) = 0.
Proof. intros H. simpl. by rewrite H. Qed.

Lemma try_counts_skip k s js1 j js2 m :
  Forall (λ j', k (drop j' s) = None) js1 → k (drop j s) = Some m →
  try_counts k s (js1 ++ j :: js2) = Some (j + m).
Proof.
  intros H Hj. induction H as [|j' js1 Hj' _ IH]; simpl.
  - by rewrite Hj.
  - by rewrite Hj'.
Qed.

Lemma reverse_seq_split lo n j :
  lo ≤ j → j < lo + n →
  reverse (seq lo n)
  = reverse (seq (S j) (lo + n - S j)) ++ j :: reverse (seq lo (j - lo)).
Proof.
  intros H1 H2. replace n with ((j - lo) + S (lo + n - S j)) at 1 by lia.
  rewrite seq_app, reverse_app. replace (lo + (j - lo)) with j by lia.
  simpl. by rewrite reverse_cons, <-app_assoc.
Qed.

Lemma match_here_cons a r s :
  match_here (a :: r) s = try_counts (match_here r) s (counts a s).
Proof. done. Qed.

Lemma match_here_tld t :
  2 ≤ length t → Forall (λ c, is_alpha_ci c = true) t →
  match_here [at_least 2 is_alpha_ci] t = Some (length t).
Proof.
  intros Hlen Ht. rewrite match_here_cons. unfold counts, at_least.
  cbn [cls qmin qmax qmode].
  replace (run is_alpha_ci t) with (length t).
  2:{ rewrite <-(app_nil_r t) at 2. rewrite run_app_all by done. simpl. lia. }
  rewrite (reverse_seq_split 2 _ (length t)) by lia.
  replace (2 + (S (length t) - 2) - S (length t)) with 0 by lia.
  cbn [seq]. rewrite reverse_nil.
  rewrite (try_counts_skip _ _ [] (length t) _ 0); [f_equal; lia|constructor|].
  done.
Qed.

Lemma match_here_dot_tld_fail s :
  match s with c :: _ => c ≠ Char.dot | [] => True end →
  match_here [lit Char.dot; at_least 2 is_alpha_ci] s = None.
Proof.
  intros H. rewrite match_here_cons. unfold counts, lit.
  cbn [cls qmin qmax qmode].
  replace (run (N.eqb Char.dot) s) with 0; [reflexivity|].
  destruct s as [|c s]; [done|]. symmetry. apply run_head_false.
  apply N.eqb_neq. congruence.
Qed.

Lemma match_here_lit ch r s m :
  match_here r s = Some m → match_here (lit ch :: r) (ch :: s) = Some (S m).
Proof.
  intros H. rewrite match_here_cons. unfold counts, lit.
  cbn [cls qmin qmax qmode]. cbn [run]. rewrite N.eqb_refl.
  replace (Nat.min 1 (S (run (N.eqb ch) s))) with 1 by lia.
  change (reverse (seq 1 (S 1 - 1))) with [1]. cbn [try_counts].
  change (drop 1 (ch :: s)) with s. by rewrite H.
Qed.

Lemma alpha_not_dot c : is_alpha_ci c = true → c ≠ Char.dot.
Proof. unfold_classes. intros H. bool_to_prop. lia. Qed.

Lemma match_here_domain d t :
  d ≠ [] → Forall (λ c, domain_class c = true) d →
  2 ≤ length t → Forall (λ c, is_alpha_ci c = true) t →
  match_here [plus domain_class; lit Char.dot; at_least 2 is_alpha_ci]
             (d ++ Char.dot :: t)
  = Some (length d + S (length t)).
Proof.
  intros Hd0 Hd Ht2 Ht. rewrite match_here_cons. unfold counts, plus. cbn [cls qmin qmax qmode].
  assert (Hrun : run domain_class (d ++ Char.dot :: t)
                 = length d + S (length t)).
  { rewrite run_app_all by done. f_equal.
    change (Char.dot :: t) with ([Char.dot] ++ t).
    rewrite <-(app_nil_r t), app_assoc, run_app_all; [simpl; rewrite length_app; simpl; lia|].
    apply Forall_app. split; [by repeat constructor|].
    eapply Forall_impl; [done|]. intros c. apply is_alpha_ci_domain. }
  rewrite Hrun.
  assert (length d ≠ 0) by by destruct d.
  rewrite (reverse_seq_split 1 _ (length d)) by lia.
  apply try_counts_skip.
  - apply Forall_forall. intros j Hj%elem_of_reverse%elem_of_seq.
    apply match_here_dot_tld_fail.
    rewrite drop_app_ge by lia.
    destruct (j - length d) as [|i] eqn:Hi; [lia|]. cbn [drop].
    destruct (drop i t) as [|c t'] eqn:Hdrop; [done|].
    apply alpha_not_dot. apply (Forall_drop _ i) in Ht.
    rewrite Hdrop in Ht. by apply Forall_cons in Ht as [? _].
  - rewrite drop_app_length. apply match_here_lit. by apply match_here_tld.
Qed.

(** An address of the email shape, matched on its own, is matched whole. *)
Lemma match_here_email x :
  email_shape x → match_here EMAIL_REGEX x = Some (length x).
Proof.
  intros (l & d & t & -> & Hl0 & Hl & Hd0 & Hd & Ht2 & Ht).
  assert (Hl' : Forall (λ c, local_class c = true) l).
  { eapply Forall_impl; [done|]. intros c. apply Is_true_true. }
  assert (Hd' : Forall (λ c, domain_class c = true) d).
  { eapply Forall_impl; [done|]. intros c. apply Is_true_true. }
  assert (Ht' : Forall (λ c, is_alpha_ci c = true) t).
  { eapply Forall_impl; [done|]. intros c. apply Is_true_true. }
  unfold EMAIL_REGEX. rewrite match_here_cons. unfold counts, plus.
  cbn [cls qmin qmax qmode].
  rewrite run_app_all, run_head_false, Nat.add_0_r by done.
  assert (length l ≠ 0) by by destruct l.
  rewrite (reverse_seq_split 1 _ (length l)) by lia.
  replace (1 + (S (length l) - 1) - S (length l)) with 0 by lia.
  cbn [seq]. rewrite reverse_nil.
  rewrite (try_counts_skip _ _ [] (length l) _
             (S (length d + S (length t)))).
  - f_equal. rewrite length_app. simpl. rewrite length_app. simpl. lia.
  - constructor.
  - rewrite drop_app_length. apply match_here_lit. by apply match_here_domain.
Qed.

Lemma match_all_go_skip r s k :
  match_here r [] = None → length s ≤ k → match_all_go r s k = [].
Proof.
  intros Hr. revert k. induction s as [|c s IH]; intros k Hk.
  - destruct k; simpl; [by rewrite Hr|done].
  - destruct k as [|k]; [simpl in Hk; lia|]. simpl. apply IH. simpl in Hk. lia.
Qed.

Lemma String_match_email x :
  email_shape x → String_match x EMAIL_REGEX = Some [x].
Proof.
  intros Hx. pose proof (email_shape_nonempty _ Hx) as Hne.
  pose proof (match_here_email _ Hx) as Hm.
  unfold String_match, match_all. destruct x as [|c x]; [done|].
  cbn [match_all_go]. rewrite Hm. rewrite firstn_all. cbn [length pred].
  by rewrite match_all_go_skip.
Qed.

(** ** The formatter *)

Lemma flushList_nodes st : nodes (flushList st) = nodes st ++ flushed (listBuffer st).
Proof.
  unfold flushList, flushed. destruct (listBuffer st); [|done].
  by rewrite app_nil_r.
Qed.

Lemma flushList_buffer st : listBuffer (flushList st) = [].
Proof. unfold flushList. by destruct (listBuffer st) eqn:H. Qed.

Lemma render_loop len lines off st :
  off + length lines = len →
  nodes (flushList (foldl (render_line len) st (imap (λ i, pair (off + i)) lines)))
  = nodes st ++ blocks_of (listBuffer st) lines.
Proof.
  revert off st. induction lines as [|line rest IH]; intros off st Hlen.
  - apply flushList_nodes.
  - rewrite imap_cons. cbn [foldl length] in *.
    rewrite (imap_ext _ (λ i, pair (S off + i))) by (intros; simpl; f_equal; lia).
    rewrite IH by lia. cbn [blocks_of render_line]. rewrite Nat.add_0_r.
    unfold is_bullet. destruct (startsWith line [Char.bullet]).
    + destruct (off =? len - 1) eqn:Hoff.
      * apply Nat.eqb_eq in Hoff. destruct rest; [|simpl in Hlen; lia].
        cbn [blocks_of]. rewrite flushList_nodes, flushList_buffer. cbn.
        by rewrite app_nil_r.
      * done.
    + cbn [nodes listBuffer]. rewrite flushList_nodes, flushList_buffer.
      by rewrite <-!app_assoc.
Qed.

Lemma format_lines_blocks lines : format_lines lines = blocks_of [] lines.
Proof.
  unfold format_lines. cbv zeta.
  rewrite (imap_ext _ (λ i, pair (0 + i))) by done.
  by rewrite render_loop.
Qed.

Lemma blocks_of_bullets buf bs rest :
  Forall (λ l, is_bullet l) bs →
  blocks_of buf (bs ++ rest) = blocks_of (buf ++ (bullet_item <$> bs)) rest.
Proof.
  intros H. revert buf. induction H as [|b bs Hb _ IH]; intros buf; simpl.
  - by rewrite app_nil_r.
  - apply Is_true_true in Hb. rewrite Hb, IH. by rewrite <-app_assoc.
Qed.

Example format_emphasis :
  renderMessageContent (js "**_bold_** text")
  = [ Paragraph [None; Some (Emphasis (js "bold")); Some (PlainText (js " text"))] ].
Proof. vm_compute. reflexivity. Qed.

(** ** The mail link *)

Lemma hex_digit_safe n : (n < 16)%N → form_safe (hex_digit n) = true.
Proof.
  unfold hex_digit, form_safe, is_upper, is_lower, is_digit, between,
    Char.star, Char.minus, Char.dot, Char.underscore. intros H.
  destruct (n <? 10)%N eqn:Hn; cbv iota; bool_to_prop; lia.
Qed.

Lemma hex_digit_not_sep n :
  hex_digit n ≠ Char.amp ∧ hex_digit n ≠ Char.equals.
Proof.
  unfold hex_digit, Char.amp, Char.equals.
  destruct (n <? 10)%N eqn:Hn; cbv iota; bool_to_prop; lia.
Qed.

Lemma form_safe_not_sep b : form_safe b = true → b ≠ Char.amp ∧ b ≠ Char.equals.
Proof.
  unfold form_safe, is_upper, is_lower, is_digit, between, Char.amp,
    Char.equals, Char.star, Char.minus, Char.dot, Char.underscore.
  intros H. bool_to_prop. lia.
Qed.

Lemma encode_byte_not_sep b : Forall not_sep (encode_byte b).
Proof.
  unfold encode_byte. destruct (b =? Char.space)%N; [by repeat constructor|].
  destruct (form_safe b) eqn:Hb.
  - repeat constructor; by apply form_safe_not_sep.
  - repeat constructor; try done; apply hex_digit_not_sep.
Qed.

Lemma urlencode_not_sep s : Forall not_sep (urlencode s).
Proof.
  unfold urlencode. apply Forall_concat, Forall_fmap, Forall_forall.
  intros b _. apply encode_byte_not_sep.
Qed.

Lemma encode_byte_chars b :
  (b < 256)%N → Forall (λ c, encoded_char c = true) (encode_byte b).
Proof.
  intros Hb. unfold encode_byte, encoded_char.
  destruct (b =? Char.space)%N; [by repeat constructor|].
  destruct (form_safe b) eqn:Hs.
  - repeat constructor. by rewrite Hs.
  - repeat constructor; try done.
    + rewrite hex_digit_safe; [done|]. apply N.Div0.div_lt_upper_bound. lia.
    + rewrite hex_digit_safe; [done|]. by apply N.mod_lt.
Qed.

Lemma utf8_bytes cp : (cp < 1114112)%N → Forall (λ b, (b < 256)%N) (utf8 cp).
Proof.
  intros Hcp. unfold utf8.
  repeat (case_match; bool_to_prop);
    repeat constructor;
    repeat match goal with
      | |- context [(?a mod 64)%N] =>
          pose proof (N.mod_lt a 64 ltac:(done)); generalize dependent (a mod 64)%N; intros
      end; try lia.
  - assert (cp / 64 < 32)%N by (apply N.Div0.div_lt_upper_bound; lia). lia.
  - assert (cp / 4096 < 16)%N by (apply N.Div0.div_lt_upper_bound; lia). lia.
  - assert (cp / 262144 < 16)%N by (apply N.Div0.div_lt_upper_bound; lia). lia.
Qed.

Lemma code_units_Forall s : code_units s = true ↔ Forall (λ c, (c < 65536)%N) s.
Proof.
  unfold code_units. rewrite forallb_forall, Forall_forall.
  split; intros H c Hc.
  - apply N.ltb_lt, H. by apply list_elem_of_In.
  - apply N.ltb_lt, H. by apply list_elem_of_In.
Qed.

Lemma scalar_values_bound s :
  Forall (λ c, (c < 65536)%N) s →
  Forall (λ cp, (cp < 1114112)%N) (scalar_values s).
Proof.
  assert (H : ∀ n s, length s ≤ n → Forall (λ c, (c < 65536)%N) s →
                     Forall (λ cp, (cp < 1114112)%N) (scalar_values s)).
  { clear s. induction n as [|n IH]; intros [|c s] Hlen Hs; simpl in *;
      try (constructor || lia).
    apply Forall_cons in Hs as [Hc Hs].
    destruct (is_high_surrogate c) eqn:Hh.
    - destruct s as [|d s]; [by repeat constructor|].
      apply Forall_cons in Hs as [Hd Hs].
      destruct (is_low_surrogate d) eqn:Hl.
      + constructor; [|apply IH; [simpl in Hlen; lia|done]].
        unfold is_high_surrogate, is_low_surrogate, between in *.
        bool_to_prop. lia.
      + constructor; [done|]. apply IH; [lia|by constructor].
    - destruct (is_low_surrogate c); constructor; try done; try lia;
        apply IH; (lia || done). }
  intros Hs. by apply (H (length s)).
Qed.

Lemma urlencode_chars s :
  code_units s = true → Forall (λ c, encoded_char c = true) (urlencode s).
Proof.
  intros Hs%code_units_Forall%scalar_values_bound. unfold urlencode.
  apply Forall_concat, Forall_fmap, Forall_concat, Forall_fmap.
  eapply Forall_impl; [exact Hs|]. intros cp Hcp. simpl.
  eapply Forall_impl; [by apply utf8_bytes|]. intros b Hb. simpl.
  by apply encode_byte_chars.
Qed.

Lemma join_code_units sep l :
  code_units sep = true → Forall (λ s, code_units s = true) l →
  code_units (join sep l) = true.
Proof.
  intros Hsep Hl. induction Hl as [|x l Hx Hl IH]; [done|].
  destruct l as [|y l]; [done|]. rewrite join_cons by done.
  unfold code_units in *. rewrite !forallb_app. by rewrite Hx, Hsep, IH.
Qed.

Lemma gmailParams_eq mailSubject mailBody founderEmails :
  gmailParams mailSubject mailBody founderEmails
  = base_params mailSubject mailBody
    ++ (if founderEmails is [] then []
        else [(js "to", join [Char.comma] founderEmails)]).
Proof.
  unfold gmailParams, base_params. destruct founderEmails as [|e es]; [done|].
  cbn [length Nat.ltb Nat.leb]. cbn [params_set].
  by rewrite !decide_False by (by compute).
Qed.

Lemma params_toString_fields mailSubject mailBody founderEmails :
  params_toString (gmailParams mailSubject mailBody founderEmails)
  = join [Char.amp] (link_fields mailSubject mailBody founderEmails).
Proof.
  rewrite gmailParams_eq. unfold params_toString, link_fields, base_params.
  rewrite fmap_app. f_equal. by destruct founderEmails.
Qed.

(** A property of every code unit of a literal. *)
Ltac closed_Forall := compute; repeat (constructor; [done|]); constructor.

Lemma query_field_no_amp name value :
  Forall (λ c, c ≠ Char.amp) (js name) →
  Forall (λ c, c ≠ Char.amp) (query_field name value).
Proof.
  intros H. unfold query_field. rewrite !Forall_app. split_and!; [done|..].
  - by repeat constructor.
  - eapply Forall_impl; [apply urlencode_not_sep|]. by intros c [? _].
Qed.

Lemma link_fields_no_amp mailSubject mailBody founderEmails :
  Forall (Forall (λ c, c ≠ Char.amp))
         (link_fields mailSubject mailBody founderEmails).
Proof.
  unfold link_fields. apply Forall_app. split.
  - rewrite !Forall_cons, Forall_nil.
    split_and!; try apply query_field_no_amp; try done; closed_Forall.
  - destruct founderEmails; [constructor|]. apply Forall_singleton.
    apply query_field_no_amp. closed_Forall.
Qed.

Lemma query_field_chars name value :
  Forall (λ c, query_char c = true) (js name) → code_units value = true →
  Forall (λ c, query_char c = true) (query_field name value).
Proof.
  intros H Hv. unfold query_field. rewrite !Forall_app. split_and!; [done|..].
  - by repeat constructor.
  - eapply Forall_impl; [by apply urlencode_chars|].
    intros c Hc. unfold query_char. by rewrite Hc.
Qed.

Lemma join_chars (P : N → Prop) sep (l : list jsstring) :
  Forall P sep → Forall (Forall P) l → Forall P (join sep l).
Proof.
  intros Hsep. induction 1 as [|x l Hx Hl IH]; [constructor|].
  destruct l as [|y l]; [done|]. rewrite join_cons by done.
  rewrite !Forall_app. by split_and!.
Qed.

Lemma link_fields_chars mailSubject mailBody founderEmails :
  code_units mailSubject = true → code_units mailBody = true →
  Forall (λ e, code_units e = true) founderEmails →
  Forall (Forall (λ c, query_char c = true))
         (link_fields mailSubject mailBody founderEmails).
Proof.
  intros Hs Hb He. unfold link_fields. apply Forall_app. split.
  - rewrite !Forall_cons, Forall_nil.
    split_and!; try apply query_field_chars; try done; closed_Forall.
  - destruct founderEmails as [|e es]; [constructor|]. apply Forall_singleton.
    apply query_field_chars; [closed_Forall|].
    by apply join_code_units.
Qed.

(** ** The conversation handlers *)

Section ControllerFacts.

Variable JSON_stringify : obj → completion jsstring.
Variable interviewStartup :
  StartupInterviewerInput → completion StartupInterviewerOutput.

Lemma getInitialBotMessage_swallows analysisData st :
  start_request_fails JSON_stringify interviewStartup analysisData →
  getInitialBotMessage JSON_stringify interviewStartup analysisData st
  = ({| messages := [ {| role := model; content := start_apology |} ];
        input := input st; isLoading := false |}, Normal ()).
Proof.
  unfold start_request_fails, getInitialBotMessage. intros H.
  cbv [mbind handler_bind setIsLoading try_catch_finally lift setMessages].
  cbn [messages input isLoading].
  destruct (JSON_stringify analysisData) as [serialized|e]; [|done].
  destruct H as [e ->]. done.
Qed.

Lemma handleSendMessage_blank analysisData st :
  trim (input st) = [] →
  handleSendMessage JSON_stringify interviewStartup analysisData st
  = (st, Normal ()).
Proof. intros H. unfold handleSendMessage. by rewrite H. Qed.

Lemma onKeyDown_noop analysisData key st :
  trim (input st) = [] ∨ isLoading st = true →
  onKeyDown JSON_stringify interviewStartup analysisData key st
  = (st, Normal ()).
Proof.
  intros H. unfold onKeyDown.
  destruct (bool_decide _); [|done]. destruct (isLoading st) eqn:Hl; [done|].
  destruct H as [H|H]; [|done]. by apply handleSendMessage_blank.
Qed.

Lemma send_disabled_true st :
  trim (input st) = [] ∨ isLoading st = true → send_disabled st = true.
Proof.
  unfold send_disabled. intros [-> | ->]; [|done]. apply orb_true_r.
Qed.

End ControllerFacts.

(** * The claims *)

(** ** The email harvest *)

(** C1. For every analysis record and public data, the harvested list
    has no two addresses equal under case-insensitive comparison; it is
    the discovery sequence with each address kept where, and in the
    casing, it is first seen: a sublist of that sequence that represents
    every discovered address, each element standing in the sequence
    before any other address with its key. With [metadata.founder_emails
    = "a@x.com"] and [metadata.contact_email = "A@X.com"] the harvest is
    exactly ["a@x.com"], whatever [JSON.parse] does. *)
Theorem founderEmails_unique_first_seen :
  (∀ analysisData publicData,
     let out := founderEmails analysisData publicData in
     let disc := discovered analysisData publicData in
     NoDup (toLowerCase <$> out)
     ∧ out = first_occurrences disc
     ∧ out `sublist_of` disc
     ∧ Forall (λ x, toLowerCase x ∈ toLowerCase <$> out) disc
     ∧ Forall (λ x, ∃ l1 l2, disc = l1 ++ x :: l2
                             ∧ toLowerCase x ∉ toLowerCase <$> l1) out)
  ∧ (∀ JSON_parse,
       founderEmails two_casings_record
                     (publicData JSON_parse two_casings_record)
       = [js "a@x.com"]).
Proof.
  split.
  - intros analysisData publicData out disc. subst out.
    rewrite founderEmails_first_occurrences. fold disc. split_and!.
    + apply first_occurrences_NoDup.
    + done.
    + apply first_occurrences_sublist.
    + apply Forall_forall. intros x Hx. by apply first_occurrences_keys.
    + apply Forall_forall. intros x Hx. by apply first_occurrences_first.
  - intros JSON_parse. vm_compute. reflexivity.
Qed.

(** C2, as the code has it. The harvest goes through six sources in a
    fixed order: [metadata.founder_emails], [metadata.contact_email],
    [metadata.founder_contacts], the founders field of the company
    overview, the whole memo draft [memo.draft_v1] (not only its company
    overview), then the normalized public data. The result is the first
    occurrences of what these hold, every harvested address is found in
    one of the six, and an address found in an earlier source stands
    before every address first discovered in a later one. *)
Theorem founderEmails_source_order analysisData publicData :
  let srcs := six_sources analysisData publicData in
  let out := founderEmails analysisData publicData in
  length srcs = 6
  ∧ out = first_occurrences (flat_map emails_in srcs)
  ∧ Forall (λ x, ∃ k, found_in srcs k x) out
  ∧ ∀ i j x y,
      i < j → found_in srcs i x → found_in srcs j y → new_in srcs j y →
      x ∈ out → y ∈ out → precedes x y out.
Proof.
  intros srcs out. subst out. rewrite founderEmails_first_occurrences.
  unfold discovered. fold srcs. split_and!.
  - done.
  - done.
  - apply Forall_forall. intros x Hx.
    assert (Hd : x ∈ flat_map emails_in srcs).
    { eapply elem_of_sublist; [exact Hx|]. apply first_occurrences_sublist. }
    rewrite <-(take_ge srcs (length srcs)) in Hd by done.
    apply elem_of_flat_map_take in Hd as (k & _ & Hk). by exists k.
  - intros i j x y. apply source_order.
Qed.

Lemma founderEmails_source_order_witness :
  precedes (js "b@y.com") (js "a@x.com")
           (founderEmails two_sources_record (VObj [])).
Proof.
  apply (founderEmails_source_order two_sources_record (VObj []))
    with (i := 1) (j := 4).
  - lia.
  - eexists. split; [reflexivity|]. by apply (bool_decide_unpack _); vm_compute.
  - eexists. split; [reflexivity|]. by apply (bool_decide_unpack _); vm_compute.
  - intros k' v Hk Hv.
    destruct k' as [|[|[|[|k']]]]; [..|lia]; injection Hv as <-;
      by apply (bool_decide_unpack _); vm_compute.
  - by apply (bool_decide_unpack _); vm_compute.
  - by apply (bool_decide_unpack _); vm_compute.
Defined.

(** C2 as the specification states it does not hold: an address in a
    section of the memo draft outside the company overview is harvested,
    though none of the six listed sources holds it. *)
Lemma claimed_sources_miss_draft :
  founderEmails draft_team_record
                (publicData (λ _, Throw SyntaxError) draft_team_record)
  = [js "z@z.com"]
  ∧ flat_map emails_in
      (claimed_sources draft_team_record
                       (publicData (λ _, Throw SyntaxError) draft_team_record))
    = []
  ∧ ¬ Forall (λ x, ∃ v,
                v ∈ claimed_sources draft_team_record
                      (publicData (λ _, Throw SyntaxError) draft_team_record)
                ∧ x ∈ emails_in v)
             (founderEmails draft_team_record
                (publicData (λ _, Throw SyntaxError) draft_team_record)).
Proof.
  split_and!; [vm_compute; reflexivity..|].
  intros H. assert (Hz : js "z@z.com"
                         ∈ founderEmails draft_team_record
                             (publicData (λ _, Throw SyntaxError)
                                         draft_team_record)).
  { by apply (bool_decide_unpack _); vm_compute. }
  rewrite Forall_forall in H. destruct (H _ Hz) as (v & Hv & Hin).
  assert (Hnone : flat_map emails_in
                    (claimed_sources draft_team_record
                       (publicData (λ _, Throw SyntaxError) draft_team_record))
                  = []) by (vm_compute; reflexivity).
  assert (Hflat : js "z@z.com"
                  ∈ flat_map emails_in
                      (claimed_sources draft_team_record
                         (publicData (λ _, Throw SyntaxError)
                                     draft_team_record))).
  { apply list_elem_of_In, in_flat_map. exists v.
    split; by apply list_elem_of_In. }
  rewrite Hnone in Hflat. by apply elem_of_nil in Hflat.
Qed.

(** C10. For every analysis record and public data, every harvested
    address is a non-empty word of the email pattern, which the pattern
    matches whole when run on the address alone; it holds exactly one
    [@], no whitespace and only code units below 128, and reads as a
    local part, [@], a domain, a dot and a top-level domain of two
    letters or more. *)
Theorem founderEmails_email_shape analysisData publicData :
  Forall (λ x, x ≠ []
               ∧ matches EMAIL_REGEX x
               ∧ String_match x EMAIL_REGEX = Some [x]
               ∧ length (filter (λ c, c = Char.at_sign) x) = 1
               ∧ Forall (λ c, is_ws c = false) x
               ∧ Forall (λ c, (c < 128)%N) x
               ∧ email_shape x)
         (founderEmails analysisData publicData).
Proof.
  rewrite founderEmails_first_occurrences. apply Forall_forall. intros x Hx.
  assert (Hs : email_shape x).
  { eapply elem_of_sublist in Hx; [|apply first_occurrences_sublist].
    apply list_elem_of_In, in_flat_map in Hx as (v & _ & Hv).
    by apply (emails_in_shape v), list_elem_of_In. }
  split_and!.
  - by apply email_shape_nonempty.
  - by apply matches_email_shape.
  - by apply String_match_email.
  - by apply email_shape_one_at.
  - by apply email_shape_no_ws.
  - by apply email_shape_ascii.
  - done.
Qed.

(** ** Identity resolution *)

(** C5, as the code has it. Sanitization gives the words of its input
    (its runs of code units that are not whitespace, in order) joined by
    single spaces, and gives no candidate exactly when the input has no
    word (it trims to empty), or that string is longer than 60 code
    units, or there are more than 6 words. The seven words of "the quick
    brown fox jumps over lazily" give no candidate, "Acme Robotics"
    gives "Acme Robotics". *)
Theorem sanitizeProductName_words_spec :
  (∀ value,
     sanitizeProductName value
     = let normalized := join [Char.space] (words value) in
       if decide (words value = [] ∨ 60 < length normalized
                  ∨ 6 < length (words value))
       then None else Some normalized)
  ∧ (∀ value, trim value = [] ↔ words value = [])
  ∧ (∀ value,
       Forall (λ w, w ≠ [] ∧ Forall (λ c, is_ws c = false) w) (words value)
       ∧ concat (words value) = filter (λ c, is_ws c = false) value)
  ∧ sanitizeProductName (js "the quick brown fox jumps over lazily") = None
  ∧ sanitizeProductName (js "Acme Robotics") = Some (js "Acme Robotics").
Proof.
  split_and!.
  - apply sanitizeProductName_words.
  - apply trim_nil_words.
  - apply words_spec.
  - vm_compute. reflexivity.
  - vm_compute. reflexivity.
Qed.

(** C5 as the specification states it does not hold: a blank name is
    rejected, though its normalized form is neither longer than 60 nor
    of more than 6 words. *)
Lemma sanitizeProductName_blank_rejected :
  sanitizeProductName (js "   ") = None
  ∧ claimed_sanitize (js "   ") = Some []
  ∧ sanitizeProductName (js "   ") ≠ claimed_sanitize (js "   ").
Proof. split_and!; [vm_compute; reflexivity..|]. vm_compute. discriminate. Qed.

(** C6, as the code has it. The product name is never a thrown error;
    it is the sanitization of the first of the two candidates (the
    product field of the names bag, then [metadata.product_name]) that
    is not empty once trimmed, and, when there is no such candidate or
    sanitization rejects it, the sanitization of the technology field of
    the memo; a rejected first candidate is not followed by a try of
    the second. *)
Theorem productName_first_nonempty analysisData :
  productName analysisData = Normal (product_of analysisData).
Proof. apply productName_Normal. Qed.

(** C6 as the specification states it does not hold: when the first
    candidate is rejected, the second, which passes, is not taken. *)
Lemma productName_skips_second_candidate :
  productName prose_product_record = Normal None
  ∧ claimed_productName prose_product_record = Some (js "Acme")
  ∧ productName prose_product_record
    ≠ Normal (claimed_productName prose_product_record).
Proof. split_and!; [vm_compute; reflexivity..|]. vm_compute. discriminate. Qed.

(** C7. Identity resolution never throws: for every analysis record it
    returns, with a display name that is not empty; for the empty record
    the display name is "the company". *)
Theorem resolve_displayName_nonempty :
  (∀ analysisData,
     ∃ identity, resolve analysisData = Normal identity
                 ∧ displayName analysisData = Normal (resolved_display identity)
                 ∧ resolved_display identity ≠ [])
  ∧ resolve []
    = Normal {| resolved_company := []; resolved_product := None;
                resolved_display := js "the company" |}.
Proof.
  split; [|vm_compute; reflexivity].
  intros analysisData.
  destruct (displayName_Normal analysisData) as (c & d & Hc & _ & Hd & Hne).
  unfold resolve. rewrite Hc, productName_Normal, Hd.
  eexists. by split_and!.
Qed.

(** ** The formatter *)

(** C8. For every reply text with a line that is not blank: when its
    trimmed lines begin with the bullet lines [bs] and go on with [tail],
    which is empty or starts with a line that is no bullet line, the
    blocks are the one list of the items of [bs] (marker stripped, in
    order; no block when [bs] is empty), then the paragraph of that line
    and the blocks of the lines after it. Bullet lines left at the end
    thus give a final list. *)
Theorem renderMessageContent_bullet_groups text bs tail :
  message_lines text = bs ++ tail →
  bs ++ tail ≠ [] →
  Forall (λ line, is_bullet line = true) bs →
  match tail with [] => True | p :: _ => is_bullet p = false end →
  renderMessageContent text
  = flushed (bullet_item <$> bs)
    ++ match tail with
       | [] => []
       | p :: rest => Paragraph (renderInlineSegments p) :: format_lines rest
       end.
Proof.
  intros Hlines Hne Hbs Htail. unfold renderMessageContent. cbv zeta.
  rewrite Hlines. destruct (bs ++ tail) as [|l ls] eqn:Hl; [done|].
  rewrite <-Hl, format_lines_blocks, blocks_of_bullets.
  2:{ eapply Forall_impl; [done|]. intros line. apply Is_true_true. }
  destruct tail as [|p rest]; cbn [blocks_of app].
  - by rewrite app_nil_r.
  - by rewrite Htail, format_lines_blocks.
Qed.

Lemma renderMessageContent_bullet_groups_witness :
  renderMessageContent bullets_then_plain
  = [ BulletList [ [Some (PlainText (js "one"))];
                   [Some (PlainText (js "two"))] ];
      Paragraph [Some (PlainText (js "plain line"))] ].
Proof.
  rewrite (renderMessageContent_bullet_groups bullets_then_plain
             [Char.bullet :: js " one"; Char.bullet :: js " two"]
             [js "plain line"]).
  - vm_compute. reflexivity.
  - vm_compute. reflexivity.
  - discriminate.
  - repeat constructor.
  - vm_compute. reflexivity.
Defined.

(** ** The mail link *)

(** C9. For a subject, a body and addresses made of 16-bit code units:
    the parameters of the link are [view], [fs], [su] and [body], then
    [to] with the addresses joined by commas when there is an address,
    and no [to] at all when there is none; the link is the compose
    address followed by these fields, each value percent-encoded, joined
    by [&]; splitting the query at [&] gives back these fields, and the
    query holds only unreserved code units, [+], [%], [&] and [=]. *)
Theorem gmailLink_recipients mailSubject mailBody founderEmails :
  code_units mailSubject = true →
  code_units mailBody = true →
  Forall (λ e, code_units e = true) founderEmails →
  let ps := gmailParams mailSubject mailBody founderEmails in
  ps = base_params mailSubject mailBody
       ++ (if founderEmails is [] then []
           else [(js "to", join [Char.comma] founderEmails)])
  ∧ (js "to" ∈ ps.*1 ↔ founderEmails ≠ [])
  ∧ gmailLink mailSubject mailBody founderEmails
    = js "https://mail.google.com/mail/?"
      ++ join [Char.amp] (link_fields mailSubject mailBody founderEmails)
  ∧ split_char Char.amp (params_toString ps)
    = link_fields mailSubject mailBody founderEmails
  ∧ Forall (λ c, query_char c = true) (params_toString ps).
Proof.
  intros Hs Hb He ps. subst ps. split_and!.
  - apply gmailParams_eq.
  - rewrite gmailParams_eq, fmap_app, elem_of_app.
    destruct founderEmails as [|e es].
    + split; [|done]. intros [H|H%elem_of_nil]; [|done].
      by apply (bool_decide_pack _), Is_true_true in H.
    + split; [done|]. intros _. right. left.
  - unfold gmailLink. by rewrite params_toString_fields.
  - rewrite params_toString_fields. apply split_char_join.
    + apply link_fields_no_amp.
    + unfold link_fields. done.
  - rewrite params_toString_fields. apply join_chars.
    + by repeat constructor.
    + by apply link_fields_chars.
Qed.

Lemma gmailLink_recipients_witness :
  gmailLink (js "Intro call request") (js "Hi, there")
            [js "a@x.com"; js "b@y.org"]
  = js "https://mail.google.com/mail/?view=cm&fs=1&su=Intro+call+request&body=Hi%2C+there&to=a%40x.com%2Cb%40y.org".
Proof.
  destruct (gmailLink_recipients (js "Intro call request") (js "Hi, there")
              [js "a@x.com"; js "b@y.org"])
    as (_ & _ & Hlink & _).
  - reflexivity.
  - reflexivity.
  - repeat constructor.
  - rewrite Hlink. vm_compute. reflexivity.
Defined.

(** ** The conversation handlers *)

(** C4. Whatever [JSON.stringify] and the interview service are, and
    from every state: when the opening request fails, the handler
    returns normally (nothing is thrown to its caller), the history is
    exactly one model message holding the fixed apology, the input is as
    it was, and the loading flag is cleared. *)
Theorem getInitialBotMessage_failure
    (JSON_stringify : obj → completion jsstring)
    (interviewStartup :
       StartupInterviewerInput → completion StartupInterviewerOutput)
    (analysisData : obj) (st : State) :
  start_request_fails JSON_stringify interviewStartup analysisData →
  getInitialBotMessage JSON_stringify interviewStartup analysisData st
  = ({| messages := [ {| role := model; content := start_apology |} ];
        input := input st; isLoading := false |}, Normal ()).
Proof. apply getInitialBotMessage_swallows. Qed.

Lemma getInitialBotMessage_failure_witness :
  start_request_fails (λ _, Normal (js "{}")) (λ _, Throw Rejected) []
  ∧ getInitialBotMessage (λ _, Normal (js "{}")) (λ _, Throw Rejected) []
      initial_state
    = ({| messages := [ {| role := model; content := start_apology |} ];
          input := []; isLoading := false |}, Normal ()).
Proof.
  split.
  - simpl. by exists Rejected.
  - apply (getInitialBotMessage_failure
             (λ _, Normal (js "{}")) (λ _, Throw Rejected) [] initial_state).
    simpl. by exists Rejected.
Defined.

(** C3. The send, as the component offers it, is a no-op whenever the
    input trims to empty or a request is in flight: the key handler of
    the input box, for every key and so for Enter, leaves the history
    and every other part of the state as it is and returns normally, and
    the send button is disabled. The blank input is checked by
    [handleSendMessage] itself, which then returns at once; the request
    in flight is checked by the two triggers, which are the only callers
    of the handler. *)
Theorem send_guards_noop
    (JSON_stringify : obj → completion jsstring)
    (interviewStartup :
       StartupInterviewerInput → completion StartupInterviewerOutput)
    (analysisData : obj) (key : jsstring) (st : State) :
  trim (input st) = [] ∨ isLoading st = true →
  (trim (input st) = [] →
   handleSendMessage JSON_stringify interviewStartup analysisData st
   = (st, Normal ()))
  ∧ onKeyDown JSON_stringify interviewStartup analysisData key st
    = (st, Normal ())
  ∧ send_disabled st = true.
Proof.
  intros H. split_and!.
  - apply handleSendMessage_blank.
  - by apply onKeyDown_noop.
  - by apply send_disabled_true.
Qed.

Lemma send_guards_noop_witness :
  (isLoading busy_state = true
   ∧ trim (input busy_state) ≠ []
   ∧ onKeyDown (λ _, Normal (js "{}"))
       (λ _, Normal {| message := js "ok" |}) [] (js "Enter") busy_state
     = (busy_state, Normal ())
   ∧ send_disabled busy_state = true)
  ∧ (isLoading blank_state = false
     ∧ trim (input blank_state) = []
     ∧ handleSendMessage (λ _, Normal (js "{}"))
         (λ _, Normal {| message := js "ok" |}) [] blank_state
       = (blank_state, Normal ())
     ∧ onKeyDown (λ _, Normal (js "{}"))
         (λ _, Normal {| message := js "ok" |}) [] (js "Enter") blank_state
       = (blank_state, Normal ())
     ∧ send_disabled blank_state = true).
Proof.
  assert (Hbusy : trim (input busy_state) = []
                  ∨ isLoading busy_state = true)
    by (right; reflexivity).
  assert (Hblank : trim (input blank_state) = []) by reflexivity.
  destruct (send_guards_noop (λ _, Normal (js "{}"))
              (λ _, Normal {| message := js "ok" |}) [] (js "Enter")
              busy_state Hbusy) as (_ & Hkey & Hbutton).
  destruct (send_guards_noop (λ _, Normal (js "{}"))
              (λ _, Normal {| message := js "ok" |}) [] (js "Enter")
              blank_state (or_introl Hblank)) as (Hsend' & Hkey' & Hbutton').
  split; split_and!.
  - reflexivity.
  - vm_compute. discriminate.
  - exact Hkey.
  - exact Hbutton.
  - reflexivity.
  - exact Hblank.
  - exact (Hsend' Hblank).
  - exact Hkey'.
  - exact Hbutton'.
Defined.

(** * Further properties of the component *)

(** ** [coerce] and [trim] *)

Lemma trimStart_split s : ∃ a, s = a ++ trimStart s ∧ all_ws a.
Proof.
  induction s as [|c s (a & Hs & Ha)]; [exists []; split; [done|constructor]|].
  simpl. destruct (is_ws c) eqn:Hc.
  - exists (c :: a). split; [by rewrite Hs at 1|by constructor].
  - exists []. split; [done|constructor].
Qed.

Lemma trimEnd_split s : ∃ b, s = trimEnd s ++ b ∧ all_ws b.
Proof.
  unfold trimEnd. destruct (trimStart_split (reverse s)) as (a & Hs & Ha).
  exists (reverse a). split; [|by apply Forall_reverse].
  rewrite <-reverse_app, <-Hs. by rewrite reverse_involutive.
Qed.

Lemma trimStart_fixed s :
  (∀ c t, s = c :: t → is_ws c = false) → trimStart s = s.
Proof. destruct s as [|c t]; [done|]. intros H. simpl. by rewrite (H c t). Qed.

Lemma trimEnd_fixed s : no_trailing_ws s → trimEnd s = s.
Proof.
  intros H. unfold trimEnd. rewrite trimStart_fixed; [apply reverse_involutive|].
  intros c t Hr. apply (H (reverse t) c).
  rewrite <-(reverse_involutive s), Hr. by rewrite reverse_cons.
Qed.

Lemma trim_trimmed s : trimmed (trim s).
Proof.
  split; [apply trim_head|]. apply trimEnd_no_trailing_ws.
Qed.

Lemma trim_fixed s : trimmed s → trim s = s.
Proof.
  intros [Hh Ht]. unfold trim. rewrite (trimStart_fixed s Hh).
  by apply trimEnd_fixed.
Qed.

Lemma trim_all_ws s : trim s = [] ↔ all_ws s.
Proof.
  split.
  - intros H. destruct (trimStart_split s) as (a & Hs & Ha).
    destruct (trimEnd_split (trimStart s)) as (b & Hb & Hbw).
    fold (trim s) in Hb. rewrite H in Hb. simpl in Hb.
    rewrite Hs, Hb. by apply Forall_app.
  - intros H. unfold trim.
    assert (Hs : trimStart s = []).
    { induction H as [|c s Hc _ IH]; [done|]. simpl. by rewrite Hc. }
    by rewrite Hs.
Qed.

Lemma coerce_blank v : coerce v = [] ↔ blank v.
Proof. destruct v; simpl; try tauto. apply trim_all_ws. Qed.

Lemma coerce_trimmed v : trimmed (coerce v).
Proof.
  destruct v; try (split; [by intros ?? [=]|by intros [|??] ? ?]).
  apply trim_trimmed.
Qed.

(** X1. [coerce] gives the empty string for whatever is not a string.
    For a string it peels whitespace off both ends and nothing else, the
    result neither begins nor ends with whitespace, and coercing the
    result again changes nothing. *)
Theorem coerce_trims v :
  match v with
  | VStr s => ∃ a b, s = a ++ coerce v ++ b ∧ all_ws a ∧ all_ws b
  | _ => coerce v = []
  end
  ∧ trimmed (coerce v)
  ∧ coerce (VStr (coerce v)) = coerce v
  ∧ (coerce v = [] ↔ blank v).
Proof.
  split_and!.
  - destruct v as [| | | |s| |]; try done. simpl.
    destruct (trimStart_split s) as (a & Hs & Ha).
    destruct (trimEnd_split (trimStart s)) as (b & Hb & Hbw).
    exists a, b. split_and!; [|done..]. rewrite Hs at 1. by rewrite Hb at 1.
  - apply coerce_trimmed.
  - simpl. apply trim_fixed, coerce_trimmed.
  - apply coerce_blank.
Qed.

(** ** [publicData] *)

(** X2. Whatever the [public_data] field holds and whatever [JSON.parse]
    returns or throws, [publicData] is an array or an object: the field
    itself, what its text parses to, or the empty object. An empty text
    is not parsed, and a text that does not parse, or parses to
    something else than an object, gives the empty object. *)
Theorem publicData_is_object JSON_parse analysisData :
  let raw := field analysisData (js "public_data") in
  let result := publicData JSON_parse analysisData in
  is_object result = true
  ∧ (result = raw
     ∨ (∃ s, raw = VStr s ∧ JSON_parse s = Normal result)
     ∨ result = VObj [])
  ∧ match raw with
    | VStr [] => result = VObj []
    | VStr s =>
        match JSON_parse s with
        | Normal parsed => if is_object parsed then result = parsed
                           else result = VObj []
        | Throw _ => result = VObj []
        end
    | _ => if is_object raw then result = raw else result = VObj []
    end.
Proof.
  intros raw result. subst result. unfold publicData. fold raw.
  destruct raw as [| |b|n|s|items|fields] eqn:Hraw; simpl.
  1,2,6,7: split_and!; first [done|by left|by do 2 right].
  - destruct b; split_and!; first [done|by do 2 right].
  - destruct (negb _); split_and!; first [done|by do 2 right].
  - destruct s as [|c s]; simpl.
    + split_and!; first [done|by do 2 right].
    + destruct (JSON_parse (c :: s)) as [parsed|e] eqn:Hp;
        [|split_and!; first [done|by do 2 right]].
      destruct parsed; simpl; split_and!;
        first [done|by do 2 right|right; left; by eexists].
Qed.

(** ** [collectEmails] *)

Lemma emails_in_falsy v : truthy v = false → emails_in v = [].
Proof. intros H. destruct v; simpl in *; by rewrite ?H. Qed.

Lemma foldl_snoc_list {A} (l acc : list A) :
  foldl (λ acc x, acc ++ [x]) acc l = acc ++ l.
Proof.
  revert acc. induction l as [|x l IH]; intros acc; simpl.
  - by rewrite app_nil_r.
  - by rewrite IH, <-app_assoc.
Qed.

(** X3. Whatever the callback, [collectEmails] calls it once for each
    email match of the value, in visiting order (the strings of an array
    or an object are visited in order, depth first), and with nothing
    else: with the callback that appends to a list it returns the
    matches, every one of the email shape, and a falsy value gives no
    call at all. *)
Theorem collectEmails_calls {St : Type} (push : jsstring → St → St) v st :
  collectEmails v push st = foldl (λ st x, push x st) st (emails_in v)
  ∧ collectEmails v (λ x acc, acc ++ [x]) [] = emails_in v
  ∧ Forall email_shape (emails_in v)
  ∧ (if truthy v then True else collectEmails v push st = st).
Proof.
  split_and!.
  - apply collectEmails_emails_in.
  - by rewrite collectEmails_emails_in, foldl_snoc_list.
  - apply Forall_forall. intros x. apply emails_in_shape.
  - destruct (truthy v) eqn:Hv; [done|].
    by rewrite collectEmails_emails_in, emails_in_falsy.
Qed.

Lemma emails_in_obj fields : emails_in (VObj fields) = emails_in (VArr fields.*2).
Proof.
  simpl. induction fields as [|[k v] fields IH]; [done|]. simpl. by rewrite IH.
Qed.

Lemma emails_in_arr_app a b :
  emails_in (VArr (a ++ b)) = emails_in (VArr a) ++ emails_in (VArr b).
Proof. simpl. apply flat_map_app. Qed.

(** X4. [collectEmails] never looks at the keys of an object: an object
    gives the calls of the array of its values. The calls of an array
    are those of its elements one after the other, so an array of two
    parts gives the calls of the first part and then those of the
    second, and a one-element array those of its element. *)
Theorem collectEmails_values_only {St : Type} (push : jsstring → St → St)
    fields a b v st :
  collectEmails (VObj fields) push st = collectEmails (VArr fields.*2) push st
  ∧ collectEmails (VArr (a ++ b)) push st
    = collectEmails (VArr b) push (collectEmails (VArr a) push st)
  ∧ collectEmails (VArr [v]) push st = collectEmails v push st.
Proof.
  rewrite !collectEmails_emails_in. split_and!.
  - by rewrite emails_in_obj.
  - by rewrite emails_in_arr_app, foldl_app.
  - simpl. by rewrite app_nil_r.
Qed.

(** ** [push] and the harvest state *)

Lemma push_seen x st :
  pushable x → toLowerCase x ∈ seen st → push x st = st.
Proof.
  intros [Hx Hne] Hin. unfold push. rewrite Hx. destruct x; [done|].
  by rewrite bool_decide_true.
Qed.

Lemma push_fold_seen st l :
  Forall pushable l → Forall (λ x, toLowerCase x ∈ seen st) l →
  foldl (λ st x, push x st) st l = st.
Proof.
  intros Hl Hs. induction Hl as [|x l Hx _ IH]; [done|].
  apply Forall_cons in Hs as [Hx' Hs]. simpl. rewrite push_seen by done.
  by apply IH.
Qed.

Lemma push_fold_covers st l :
  harvest_inv st → Forall pushable l →
  Forall (λ x, toLowerCase x ∈ seen (foldl (λ st x, push x st) st l)) l.
Proof.
  intros Hinv Hl. destruct (push_fold st l Hinv Hl) as [Hinv' Hord].
  apply Forall_forall. intros x Hx. apply Hinv'. rewrite Hord.
  rewrite fmap_app, elem_of_app, dedup_from_first_occurrences.
  destruct (decide (toLowerCase x ∈ toLowerCase <$> ordered st)); [by left|].
  right. apply (first_occurrences_keys l x) in Hx.
  apply list_elem_of_fmap in Hx as (y & Hy & Hin).
  apply list_elem_of_fmap. exists y. split; [done|].
  apply list_elem_of_filter. split; [congruence|done].
Qed.

Lemma emails_in_pushable v : Forall pushable (emails_in v).
Proof.
  apply Forall_forall. intros x Hx.
  by apply email_shape_pushable, (emails_in_shape v).
Qed.

(** X5. From a state in which [seen] holds the lowered form of what
    [ordered] holds (as on entry of [founderEmails]): harvesting a value
    keeps that, only appends to [ordered], and harvesting the same value
    a second time changes nothing. *)
Theorem harvest_idempotent v st :
  harvest_inv st →
  harvest_inv (harvest v st)
  ∧ ordered st `prefix_of` ordered (harvest v st)
  ∧ harvest v (harvest v st) = harvest v st.
Proof.
  intros Hinv. unfold harvest. rewrite !collectEmails_emails_in.
  pose proof (emails_in_pushable v) as Hp.
  destruct (push_fold st (emails_in v) Hinv Hp) as [Hinv' Hord].
  split_and!.
  - done.
  - rewrite Hord. by eexists.
  - apply push_fold_seen; [done|]. by apply push_fold_covers.
Qed.

Lemma harvest_idempotent_witness :
  harvest_inv {| seen := ∅; ordered := [] |}
  ∧ harvest (VStr (js "a@x.com A@X.COM"))
      (harvest (VStr (js "a@x.com A@X.COM")) {| seen := ∅; ordered := [] |})
    = harvest (VStr (js "a@x.com A@X.COM")) {| seen := ∅; ordered := [] |}.
Proof.
  assert (H : harvest_inv {| seen := ∅; ordered := [] |}).
  { intros k. simpl. split; [by intros ?%elem_of_empty|by intros ?%elem_of_nil]. }
  split; [exact H|].
  apply (harvest_idempotent (VStr (js "a@x.com A@X.COM")) _ H).
Defined.

(** ** Where the addresses come from *)

Lemma match_all_go_infix r s skip x :
  x ∈ match_all_go r s skip → infix_of x s.
Proof.
  revert skip. induction s as [|c s IH]; intros skip; simpl.
  - destruct skip; simpl; [|by intros ?%elem_of_nil].
    destruct (match_here r []); [|by intros ?%elem_of_nil].
    intros ->%list_elem_of_singleton. rewrite take_nil. by exists [], [].
  - assert (Htl : ∀ k, x ∈ match_all_go r s k → infix_of x (c :: s)).
    { intros k (a & b & ->)%IH. by exists (c :: a), b. }
    destruct skip as [|k]; simpl; [|apply Htl].
    destruct (match_here r (c :: s)) as [m|]; [|apply Htl].
    intros [->|Hx]%elem_of_cons; [|by eapply Htl].
    exists [], (drop m (c :: s)). by rewrite take_drop.
Qed.

Lemma emails_in_strings v x :
  x ∈ emails_in v → ∃ s, s ∈ strings_in v ∧ infix_of x s.
Proof.
  revert x. induction v as [| |b|n|s|items IH|fields IH] using jsvalue_nested_ind;
    intros x; simpl; try by intros ?%elem_of_nil.
  - by destruct b; intros ?%elem_of_nil.
  - by destruct (negb _); intros ?%elem_of_nil.
  - destruct (negb _); [by intros ?%elem_of_nil|].
    intros H%match_all_go_infix. exists s. split; [left|done].
  - intros (v & Hv & Hx)%list_elem_of_In%in_flat_map.
    rewrite Forall_forall in IH.
    destruct (IH v (proj2 (list_elem_of_In _ _) Hv) x
                (proj2 (list_elem_of_In _ _) Hx)) as (s & Hs & Hi).
    exists s. split; [|done]. apply list_elem_of_In, in_flat_map.
    exists v. split; [done|by apply list_elem_of_In].
  - intros (v & Hv & Hx)%list_elem_of_In%in_flat_map.
    rewrite Forall_forall in IH.
    destruct (IH v (proj2 (list_elem_of_In _ _) Hv) x
                (proj2 (list_elem_of_In _ _) Hx)) as (s & Hs & Hi).
    exists s. split; [|done]. apply list_elem_of_In, in_flat_map.
    exists v. split; [done|by apply list_elem_of_In].
Qed.

(** X6. The harvest invents nothing: every harvested address stands, as
    a run of consecutive code units and in that casing, in a string held
    by one of the six sources; text in the keys of objects and in other
    fields of the record is never a source. *)
Theorem founderEmails_from_sources analysisData publicData :
  Forall (λ x, ∃ src s, src ∈ six_sources analysisData publicData
                        ∧ s ∈ strings_in src ∧ infix_of x s)
         (founderEmails analysisData publicData).
Proof.
  rewrite founderEmails_first_occurrences. apply Forall_forall. intros x Hx.
  eapply elem_of_sublist in Hx; [|apply first_occurrences_sublist].
  apply list_elem_of_In, in_flat_map in Hx as (src & Hsrc & Hin).
  apply list_elem_of_In, emails_in_strings in Hin as (s & Hs & Hi).
  exists src, s. split_and!; [by apply list_elem_of_In|done..].
Qed.

(** ** [sanitizeProductName] *)

Lemma words_go_word w cur s :
  Forall (λ c, is_ws c = false) w →
  words_go cur (w ++ s) = words_go (reverse w ++ cur) s.
Proof.
  intros Hw. revert cur. induction Hw as [|c w Hc _ IH]; intros cur; [done|].
  simpl. rewrite Hc, IH. by rewrite reverse_cons, <-app_assoc.
Qed.

Lemma words_go_flush cur : cur ≠ [] → words_go cur [] = [reverse cur].
Proof. by destruct cur. Qed.

Lemma words_join (ws : list jsstring) :
  Forall (λ w, w ≠ [] ∧ Forall (λ c, is_ws c = false) w) ws →
  words (join [Char.space] ws) = ws.
Proof.
  unfold words. induction 1 as [|w ws [Hne Hw] Hws IH]; [done|].
  assert (Hr : reverse w ++ [] ≠ []).
  { rewrite app_nil_r. intros H%(f_equal reverse).
    by rewrite reverse_involutive in H. }
  destruct ws as [|w' ws].
  - change (join [Char.space] [w]) with w.
    assert (H : words_go [] (w ++ []) = [w]).
    { rewrite words_go_word, words_go_flush by done.
      by rewrite app_nil_r, reverse_involutive. }
    by rewrite app_nil_r in H.
  - rewrite join_cons by done. rewrite words_go_word by done.
    cbn [app]. rewrite words_go_cons. change (is_ws Char.space) with true.
    cbv iota. rewrite IH. destruct (reverse w ++ []) eqn:He; [done|].
    rewrite <-He. by rewrite app_nil_r, reverse_involutive.
Qed.

(** X7. A name that [sanitizeProductName] accepts is not empty, has at
    most 60 code units and at most 6 words, neither begins nor ends with
    whitespace, and is accepted unchanged when sanitized again. *)
Theorem sanitizeProductName_idempotent value n :
  sanitizeProductName value = Some n →
  n ≠ [] ∧ length n ≤ 60 ∧ length (words n) ≤ 6 ∧ trim n = n
  ∧ sanitizeProductName n = Some n.
Proof.
  intros H. pose proof (sanitize_nonempty _ _ H) as Hne.
  rewrite sanitizeProductName_words in H. cbv zeta in H.
  case_decide as Hc; [done|]. injection H as <-.
  destruct (words_spec value) as [Hw _].
  assert (Hj : words (join [Char.space] (words value)) = words value)
    by by apply words_join.
  assert (Hs : sanitizeProductName (join [Char.space] (words value))
               = Some (join [Char.space] (words value))).
  { rewrite sanitizeProductName_words. cbv zeta. rewrite Hj.
    by rewrite decide_False. }
  split_and!; [done|lia|rewrite Hj; lia| |done].
  unfold sanitizeProductName in Hs.
  destruct (trim (join [Char.space] (words value))) as [|c t] eqn:Ht; [done|].
  rewrite <-Ht. apply trim_fixed. split.
  - intros a r Hr. destruct (words value) as [|w ws] eqn:Hwv; [done|].
    apply Forall_cons in Hw as [[Hw0 Hw] _].
    destruct w as [|a' w]; [done|]. apply Forall_cons in Hw as [Ha _].
    destruct ws; simpl in Hr; injection Hr as <- _; done.
  - intros s' a Hr.
    assert (Hl : Forall (λ c, is_ws c = false)
                   (default [] (last (words value)))).
    { destruct (last (words value)) as [w|] eqn:Hlast; [|constructor].
      apply last_Some_elem_of in Hlast. rewrite Forall_forall in Hw.
      by apply Hw. }
    assert (Hend : ∀ (ws : list jsstring) w, last ws = Some w → w ≠ [] →
              ∃ p, join [Char.space] ws = p ++ w).
    { clear. induction ws as [|x ws IH]; intros w Hl Hw; [done|].
      destruct ws as [|y ws].
      - injection Hl as ->. by exists [].
      - destruct (IH w Hl Hw) as (p & Hp). rewrite join_cons by done.
        exists (x ++ [Char.space] ++ p). rewrite Hp. by rewrite <-!app_assoc. }
    destruct (last (words value)) as [w|] eqn:Hlast.
    2:{ apply last_None in Hlast. by rewrite Hlast in Hne. }
    assert (Hw0 : w ≠ []).
    { apply last_Some_elem_of in Hlast. rewrite Forall_forall in Hw.
      by apply Hw. }
    destruct (Hend _ _ Hlast Hw0) as (p & Hp). rewrite Hp in Hr.
    destruct (reverse w) as [|z rw] eqn:Hrev.
    { apply (f_equal reverse) in Hrev. by rewrite reverse_involutive in Hrev. }
    apply (f_equal reverse) in Hrev. rewrite reverse_involutive in Hrev.
    rewrite Hrev, reverse_cons, app_assoc in Hr.
    apply app_inj_tail in Hr as [_ <-]. simpl in Hl. rewrite Hrev in Hl.
    apply Forall_reverse in Hl. rewrite reverse_involutive in Hl.
    by apply Forall_cons in Hl as [? _].
Qed.

Lemma sanitizeProductName_idempotent_witness :
  sanitizeProductName (js "  Acme   Robotics ") = Some (js "Acme Robotics")
  ∧ sanitizeProductName (js "Acme Robotics") = Some (js "Acme Robotics").
Proof.
  assert (H : sanitizeProductName (js "  Acme   Robotics ")
              = Some (js "Acme Robotics")) by (vm_compute; reflexivity).
  split; [exact H|].
  apply (sanitizeProductName_idempotent _ _ H).
Defined.

(** ** Names and labels *)

Lemma or_str_first (a : jsstring) (l : list jsstring) :
  default [] (head (filter (λ s, s ≠ []) (a :: l)))
  = or_str a (default [] (head (filter (λ s, s ≠ []) l))).
Proof.
  destruct a as [|c a].
  - rewrite filter_cons_False; [done|]. intros H. by apply H.
  - by rewrite filter_cons_True.
Qed.

Lemma or_str_nil (a b : jsstring) : or_str a b = [] ↔ a = [] ∧ b = [].
Proof. destruct a; simpl; [tauto|]. split; [done|by intros []]. Qed.

Lemma or_str_trimmed a b : trimmed a → trimmed b → trimmed (or_str a b).
Proof. by destruct a. Qed.

(** X8. [companyName] never throws. It is the first of its four fields
    (the company field of the names bag, [metadata.company_legal_name],
    [metadata.company_name], the name field of the company overview)
    that is a string with something else than whitespace in it, trimmed;
    it is empty exactly when there is no such field. *)
Theorem companyName_first_nonblank analysisData :
  ∃ c, companyName analysisData = Normal c
       ∧ c = default []
               (head (filter (λ s, s ≠ [])
                             (coerce <$> company_candidates analysisData)))
       ∧ (c = [] ↔ Forall blank (company_candidates analysisData))
       ∧ trimmed c.
Proof.
  eexists. split; [apply companyName_Normal|]. unfold company_candidates.
  split_and!.
  - rewrite !fmap_cons, fmap_nil.
    rewrite !or_str_first, filter_nil. cbn [head default].
    generalize (coerce (get (names_of analysisData) (js "company")))
      (coerce (get (field analysisData (js "metadata")) (js "company_legal_name")))
      (coerce (get (field analysisData (js "metadata")) (js "company_name")))
      (coerce (get (overview_of analysisData) (js "name"))).
    by intros [|??] [|??] [|??] [|??].
  - rewrite !Forall_cons, Forall_nil, <-!coerce_blank, !or_str_nil. tauto.
  - repeat apply or_str_trimmed; apply coerce_trimmed.
Qed.

Section LabelFacts.

Variable String_toLowerCase : jsstring → jsstring.

Lemma showProduct_same name :
  showProduct String_toLowerCase name (Some name) = false.
Proof.
  destruct name as [|c p]; [done|]. simpl. by rewrite bool_decide_true.
Qed.

Lemma combinedName_nonempty c p d :
  d ≠ [] → combinedName String_toLowerCase c p d ≠ [].
Proof.
  intros Hd. unfold combinedName.
  assert (or_str c d ≠ []) by by apply or_str_nonempty_r.
  destruct (showProduct _ _ _); [|done].
  destruct (or_str c d); [done|]. done.
Qed.

End LabelFacts.

(** X9. For every analysis record and whatever lower-casing the runtime
    does: the combined name is not empty and begins with the company
    name or, when there is none, the display name; the product is left
    out of it when there is no product name or when it is the company
    name to the letter; and the company label of the mail body is the
    company name or else the display name, so that its two further
    alternatives, the product name and the literal "your company", are
    never reached. *)
Theorem labels_fall_back String_toLowerCase analysisData :
  ∃ identity,
    resolve analysisData = Normal identity
    ∧ let c := resolved_company identity in
      let p := resolved_product identity in
      let d := resolved_display identity in
      combinedName String_toLowerCase c p d ≠ []
      ∧ or_str c d `prefix_of` combinedName String_toLowerCase c p d
      ∧ fallbackCompany c p d = or_str c d
      ∧ fallbackCompany c p d ≠ []
      ∧ productLabel p ≠ []
      ∧ showProduct String_toLowerCase c None = false
      ∧ showProduct String_toLowerCase c (Some c) = false.
Proof.
  destruct (displayName_Normal analysisData) as (c & d & Hc & _ & Hd & Hne).
  exists {| resolved_company := c; resolved_product := product_of analysisData;
            resolved_display := d |}.
  split.
  { unfold resolve. by rewrite Hc, productName_Normal, Hd. }
  cbn [resolved_company resolved_product resolved_display].
  assert (Hcd : or_str c d ≠ []) by by apply or_str_nonempty_r.
  split_and!.
  - by apply combinedName_nonempty.
  - unfold combinedName. destruct (showProduct _ _ _); [by eexists|].
    exists []. by rewrite app_nil_r.
  - unfold fallbackCompany. by destruct (or_str c d).
  - unfold fallbackCompany. by destruct (or_str c d).
  - unfold productLabel. by apply or_str_nonempty_r.
  - done.
  - apply showProduct_same.
Qed.

(** ** The conversation *)

Section ConversationFacts.

Variable JSON_stringify : obj → completion jsstring.
Variable interviewStartup :
  StartupInterviewerInput → completion StartupInterviewerOutput.
Variable analysisData : obj.

Lemma getInitialBotMessage_result st :
  getInitialBotMessage JSON_stringify interviewStartup analysisData st
  = ({| messages := [ {| role := model;
                         content := reply_or JSON_stringify interviewStartup analysisData start_apology [] |} ];
        input := input st; isLoading := false |}, Normal ()).
Proof.
  unfold getInitialBotMessage, reply_or.
  cbv [mbind handler_bind setIsLoading try_catch_finally lift setMessages].
  cbn [messages input isLoading].
  destruct (JSON_stringify analysisData) as [serialized|e]; [|done].
  by destruct (interviewStartup _).
Qed.

Lemma handleSendMessage_result st :
  trim (input st) ≠ [] →
  handleSendMessage JSON_stringify interviewStartup analysisData st
  = ({| messages :=
          messages st
          ++ [ {| role := user; content := input st |};
               {| role := model;
                  content :=
                    reply_or JSON_stringify interviewStartup analysisData send_apology
                      (messages st ++ [ {| role := user; content := input st |} ]) |} ];
        input := []; isLoading := false |}, Normal ()).
Proof.
  intros Hne. unfold handleSendMessage, reply_or.
  destruct (trim (input st)); [done|].
  cbv [mbind handler_bind setIsLoading setInput try_catch_finally lift
       setMessages].
  cbn [messages input isLoading].
  destruct (JSON_stringify analysisData) as [serialized|e].
  - destruct (interviewStartup _); cbn [messages input isLoading];
      by rewrite <-app_assoc.
  - cbn [messages input isLoading]. by rewrite <-app_assoc.
Qed.

Lemma exchanges_snoc ms u m :
  exchanges ms = true → is_user u = true → is_model m = true →
  exchanges (ms ++ [u; m]) = true.
Proof.
  intros Hms Hu Hm.
  assert (H : ∀ n l, length l ≤ n → exchanges l = true →
                     exchanges (l ++ [u; m]) = true).
  { induction n as [|n IH]; intros [|a [|b l]] Hlen Hl; simpl in *;
      try done; try lia.
    - by rewrite Hu, Hm.
    - by rewrite Hu, Hm.
    - apply andb_true_iff in Hl as [Hab Hl]. rewrite Hab. simpl.
      apply IH; [lia|done]. }
  by apply (H (length ms)).
Qed.

Lemma dispatch_settled e st :
  settled st →
  settled (dispatch JSON_stringify interviewStartup analysisData e st).1.
Proof.
  intros Hst. destruct e as [|value|key]; simpl.
  - rewrite getInitialBotMessage_result. by right.
  - done.
  - unfold onKeyDown. destruct (bool_decide _ && _) eqn:Hg; [|done].
    apply andb_true_iff in Hg as [_ Hl%negb_true_iff].
    destruct (trim (input st)) as [|c t] eqn:Ht.
    + by rewrite handleSendMessage_blank.
    + rewrite handleSendMessage_result by by rewrite Ht.
      destruct Hst as [[_ Hst]|[Hst _]]; [congruence|]. right. split; [|done].
      cbn [messages]. destruct (messages st) as [|m ms]; [done|].
      simpl in *. apply andb_true_iff in Hst as [-> Hms]. simpl.
      by apply exchanges_snoc.
Qed.

Lemma run_events_settled es st :
  settled st →
  settled (run_events JSON_stringify interviewStartup analysisData es st).
Proof.
  revert st. induction es as [|e es IH]; intros st Hst; [done|].
  simpl. by apply IH, dispatch_settled.
Qed.

End ConversationFacts.

(** X10. Whatever [JSON.stringify] and the interview service do, and
    from every state: [getInitialBotMessage] returns normally, drops the
    history it finds and leaves exactly one model message (the answer of
    the service to a request with an empty history, or the opening
    apology), does not touch the input, and clears the loading flag. *)
Theorem getInitialBotMessage_resets
    (JSON_stringify : obj → completion jsstring)
    (interviewStartup :
       StartupInterviewerInput → completion StartupInterviewerOutput)
    (analysisData : obj) (st : State) :
  ∃ reply,
    getInitialBotMessage JSON_stringify interviewStartup analysisData st
    = ({| messages := [ {| role := model; content := reply |} ];
          input := input st; isLoading := false |}, Normal ())
    ∧ match JSON_stringify analysisData with
      | Normal serialized =>
          match interviewStartup {| input_analysisData := serialized;
                                    input_history := [] |} with
          | Normal result => reply = message result
          | Throw _ => reply = start_apology
          end
      | Throw _ => reply = start_apology
      end.
Proof.
  eexists. split; [apply getInitialBotMessage_result|]. unfold reply_or.
  destruct (JSON_stringify analysisData); [|done].
  by destruct (interviewStartup _).
Qed.

(** X11. With an input that does not trim to empty, and whatever the
    service does, [handleSendMessage] returns normally and only appends
    to the history: the user message with the input as typed (not
    trimmed), then one model message, which is the answer of the service
    to the history with that user message, or the fallback text when the
    request fails; the user message stays in both cases. The input is
    cleared and the loading flag ends cleared. *)
Theorem handleSendMessage_appends
    (JSON_stringify : obj → completion jsstring)
    (interviewStartup :
       StartupInterviewerInput → completion StartupInterviewerOutput)
    (analysisData : obj) (st : State) :
  trim (input st) ≠ [] →
  ∃ reply,
    handleSendMessage JSON_stringify interviewStartup analysisData st
    = ({| messages := messages st
                      ++ [ {| role := user; content := input st |};
                           {| role := model; content := reply |} ];
          input := []; isLoading := false |}, Normal ())
    ∧ match JSON_stringify analysisData with
      | Normal serialized =>
          match interviewStartup
                  {| input_analysisData := serialized;
                     input_history :=
                       messages st
                       ++ [ {| role := user; content := input st |} ] |} with
          | Normal result => reply = message result
          | Throw _ => reply = send_apology
          end
      | Throw _ => reply = send_apology
      end.
Proof.
  intros Hne. eexists. split; [by apply handleSendMessage_result|].
  unfold reply_or. destruct (JSON_stringify analysisData); [|done].
  by destruct (interviewStartup _).
Qed.

Lemma handleSendMessage_appends_witness :
  trim (js " hi ") ≠ []
  ∧ (handleSendMessage (λ _, Normal (js "{}")) (λ _, Throw Rejected) []
       {| messages := [ {| role := model; content := js "Hello" |} ];
          input := js " hi "; isLoading := false |}).1
    = {| messages := [ {| role := model; content := js "Hello" |};
                       {| role := user; content := js " hi " |};
                       {| role := model; content := send_apology |} ];
         input := []; isLoading := false |}.
Proof.
  assert (H : trim (js " hi ") ≠ []) by (vm_compute; discriminate).
  split; [exact H|].
  destruct (handleSendMessage_appends (λ _, Normal (js "{}"))
              (λ _, Throw Rejected) []
              {| messages := [ {| role := model; content := js "Hello" |} ];
                 input := js " hi "; isLoading := false |} H)
    as (reply & -> & ->).
  reflexivity.
Defined.

(** X12. From the state on mount, and after any sequence of mounts (the
    effect that fetches the opening message), changes of the input and
    key presses, each handled to its end before the next, whatever the
    service answers: either the opening
    message has not come yet, the history is empty and the loading flag
    is set, so that key presses do nothing; or the flag is cleared and
    the history is a model message followed by pairs of a user message
    and a model message. *)
Theorem run_events_conversation
    (JSON_stringify : obj → completion jsstring)
    (interviewStartup :
       StartupInterviewerInput → completion StartupInterviewerOutput)
    (analysisData : obj) (es : list Event) :
  let st := run_events JSON_stringify interviewStartup analysisData es
                       initial_state in
  (messages st = [] ∧ isLoading st = true)
  ∨ (conversation (messages st) = true ∧ isLoading st = false).
Proof. apply run_events_settled. by left. Qed.

(** ** [renderInlineSegments] *)

Lemma match_here_lit_eq ch r s :
  match_here (lit ch :: r) s
  = match s with
    | c :: s' => if (ch =? c)%N then S <$> match_here r s' else None
    | [] => None
    end.
Proof.
  rewrite match_here_cons. unfold counts, lit. cbn [cls qmin qmax qmode].
  destruct s as [|c s]; [done|]. cbn [run].
  destruct (ch =? c)%N; [|done].
  replace (Nat.min 1 (S (run (N.eqb ch) s))) with 1 by lia.
  change (reverse (seq 1 (S 1 - 1))) with [1]. cbn [try_counts].
  change (drop 1 (c :: s)) with s. by destruct (match_here r s).
Qed.

Lemma split_go_skip r cap s cur k :
  split_go r cap s cur k = split_go r cap (drop k s) cur 0.
Proof.
  revert k. induction s as [|c s IH]; intros [|k]; try done. simpl. apply IH.
Qed.

Lemma split_go_concat r s cur k :
  concat (split_go r true s cur k) = reverse cur ++ drop k s.
Proof.
  revert cur k. induction s as [|c s IH]; intros cur k.
  - simpl. by rewrite drop_nil, !app_nil_r.
  - destruct k as [|k]; [|simpl; apply IH]. cbn [split_go drop].
    destruct (match_here r (c :: s)) as [[|m]|].
    + rewrite concat_app, IH. rewrite drop_0. destruct cur as [|a cur].
      * done.
      * generalize (reverse (a :: cur)). intros rc. cbn [concat].
        rewrite !app_nil_r. done.
    + cbn [concat]. rewrite concat_app, IH. cbn [concat].
      rewrite app_nil_r, reverse_nil, app_nil_l.
      change (take (S m) (c :: s) ++ drop m s)
        with (take (S m) (c :: s) ++ drop (S m) (c :: s)).
      by rewrite take_drop.
    + rewrite IH, reverse_cons. cbn [drop]. by rewrite <-app_assoc.
Qed.

Lemma String_split_concat r s : concat (String_split s r true) = s.
Proof.
  destruct s as [|c s].
  - unfold String_split. by destruct (match_here r []).
  - unfold String_split. by rewrite split_go_concat.
Qed.

Lemma split_go_nonempty r cap s cur k : split_go r cap s cur k ≠ [].
Proof.
  revert cur k. induction s as [|c s IH]; intros cur k; [done|].
  destruct k as [|k]; [|apply IH]. cbn [split_go].
  destruct (match_here r (c :: s)) as [[|m]|]; [|done|apply IH].
  intros [_ H]%app_eq_nil. by apply IH in H.
Qed.

Lemma slice_inner_sublist s a b : slice_inner s a b `sublist_of` s.
Proof.
  unfold slice_inner. etrans; [apply sublist_take|apply sublist_drop].
Qed.

Lemma concat_sublist {A} (l1 l2 : list (list A)) :
  Forall2 sublist l1 l2 → concat l1 `sublist_of` concat l2.
Proof.
  induction 1; [done|]. simpl. by apply sublist_app.
Qed.

Lemma startsWith_prefix s p : startsWith s p = true ↔ ∃ r, s = p ++ r.
Proof.
  split.
  - revert s. induction p as [|a p IH]; intros s H; [by exists s|].
    destruct s as [|c s]; [done|]. simpl in H.
    apply andb_true_iff in H as [->%N.eqb_eq H].
    destruct (IH _ H) as [r ->]. by exists r.
  - intros [r ->]. induction p as [|a p IH]; [by destruct r|].
    simpl. by rewrite N.eqb_refl.
Qed.

Lemma endsWith_suffix s p : endsWith s p = true ↔ ∃ r, s = r ++ p.
Proof.
  unfold endsWith. rewrite startsWith_prefix. split.
  - intros [r H]. exists (reverse r).
    apply (f_equal reverse) in H.
    by rewrite reverse_involutive, reverse_app, reverse_involutive in H.
  - intros [r ->]. exists (reverse r). by rewrite reverse_app.
Qed.

Lemma marked_spec s :
  startsWith s (js "**_") && endsWith s (js "_**") = true ↔ marked s.
Proof.
  rewrite andb_true_iff, startsWith_prefix, endsWith_suffix. split.
  - intros [[r Hr] [r' Hr']]. rewrite Hr' in Hr.
    destruct r' as [|a [|b [|c r']]]; simplify_eq/=.
    + by right.
    + left. by exists r'.
  - intros [[body ->]| ->].
    + split; [by eexists|]. exists (js "**_" ++ body). by rewrite <-app_assoc.
    + split; [by exists (js "**")|by exists (js "**")].
Qed.

Lemma slice_inner_marked body :
  slice_inner (js "**_" ++ body ++ js "_**") 3 3 = body.
Proof.
  unfold slice_inner. rewrite !length_app.
  change (drop 3 (js "**_" ++ body ++ js "_**")) with (body ++ js "_**").
  replace (length (js "**_") + (length body + length (js "_**")) - 3 - 3)
    with (length body) by (simpl; lia).
  by rewrite take_app_length.
Qed.

Lemma segment_keeps segment :
  keeps segment
    (if segment is [] then None
     else if startsWith segment (js "**_") && endsWith segment (js "_**")
          then Some (Emphasis (slice_inner segment 3 3))
          else Some (PlainText segment)).
Proof.
  destruct segment as [|c s]; [done|].
  destruct (startsWith _ _ && endsWith _ _) eqn:Hm.
  - apply marked_spec in Hm as [[body ->]| ->].
    + left. by rewrite slice_inner_marked.
    + by right.
  - split_and!; [done..|]. intros H%marked_spec. congruence.
Qed.

(** X13. [renderInlineSegments] loses no text but markers. The segments
    it splits the text into, put together, are the text, and there is
    one child for each segment, at least one: no child for an empty
    segment only; a plain child holding the whole segment when the
    segment does not both begin with the opening marker and end with the
    closing one; and otherwise an emphasis holding the segment without
    the two markers. The five code units in which the two markers share
    the underscore give an empty emphasis. Hence what the children
    show, put together, is the text with code units left out, none added
    or moved. *)
Theorem renderInlineSegments_keeps_text text :
  concat (String_split text EMPHASIS true) = text
  ∧ Forall2 keeps (String_split text EMPHASIS true)
                  (renderInlineSegments text)
  ∧ length (renderInlineSegments text)
    = length (String_split text EMPHASIS true)
  ∧ renderInlineSegments text ≠ []
  ∧ concat (shown <$> renderInlineSegments text) `sublist_of` text
  ∧ renderInlineSegments (js "**_**") = [Some (Emphasis [])].
Proof.
  split_and!.
  - apply String_split_concat.
  - unfold renderInlineSegments. apply Forall2_fmap_r, Forall_Forall2_diag.
    apply Forall_forall. intros segment _. apply segment_keeps.
  - unfold renderInlineSegments. apply length_fmap.
  - unfold renderInlineSegments. intros H%fmap_nil_inv.
    revert H. destruct text; [done|]. apply split_go_nonempty.
  - rewrite <-(String_split_concat EMPHASIS text) at 2.
    apply concat_sublist. unfold renderInlineSegments.
    rewrite <-list_fmap_compose. apply Forall2_fmap_l, Forall_Forall2_diag.
    apply Forall_forall. intros seg _. simpl. destruct seg as [|c seg]; [done|].
    destruct (_ && _); [apply slice_inner_sublist|done].
  - vm_compute. reflexivity.
Qed.

Lemma match_here_emphasis_head s :
  match s with c :: _ => c ≠ Char.star | [] => True end →
  match_here EMPHASIS s = None.
Proof.
  intros H. unfold EMPHASIS. rewrite match_here_lit_eq.
  destruct s as [|c s]; [done|]. apply not_eq_sym, N.eqb_neq in H.
  by rewrite H.
Qed.

Lemma split_go_star_free cap pre s cur :
  Forall (λ c, c ≠ Char.star) pre →
  split_go EMPHASIS cap (pre ++ s) cur 0
  = split_go EMPHASIS cap s (reverse pre ++ cur) 0.
Proof.
  intros H. revert cur. induction H as [|c pre Hc _ IH]; intros cur; [done|].
  cbn [app split_go]. rewrite match_here_emphasis_head by done.
  by rewrite IH, reverse_cons, <-app_assoc.
Qed.

Lemma startsWith_app p s : startsWith (p ++ s) p = true.
Proof. induction p as [|a p IH]; [by destruct s|]. simpl. by rewrite N.eqb_refl. Qed.

Lemma endsWith_app s p : endsWith (s ++ p) p = true.
Proof. unfold endsWith. rewrite reverse_app. apply startsWith_app. Qed.

Lemma startsWith_star_free s p :
  Forall (λ c, c ≠ Char.star) s → startsWith s (Char.star :: p) = false.
Proof.
  destruct 1 as [|c s Hc _]; [done|]. simpl.
  apply N.eqb_neq in Hc. by rewrite Hc.
Qed.

(** The closing marker does not start inside a text without stars. *)
Lemma closing_not_inside x xs rest :
  Forall (λ c, c ≠ Char.star) (x :: xs) →
  match_here [lit Char.underscore; lit Char.star; lit Char.star]
             ((x :: xs) ++ Char.underscore :: rest)
  = None.
Proof.
  intros [Hx Hxs]%Forall_cons. cbn [app]. rewrite match_here_lit_eq.
  destruct (Char.underscore =? x)%N; [|done].
  rewrite match_here_lit_eq. destruct xs as [|y xs]; [done|].
  apply Forall_cons in Hxs as [Hy _]. cbn [app].
  apply not_eq_sym, N.eqb_neq in Hy. by rewrite Hy.
Qed.

Lemma seq_split lo n j :
  lo ≤ j → j < lo + n →
  seq lo n = seq lo (j - lo) ++ j :: seq (S j) (lo + n - S j).
Proof.
  intros H1 H2. replace n with ((j - lo) + S (lo + n - S j)) at 1 by lia.
  rewrite seq_app. replace (lo + (j - lo)) with j by lia. done.
Qed.

Lemma match_here_emphasis_body body post :
  body ≠ [] →
  Forall (λ c, c ≠ Char.star) body →
  Forall (λ c, is_line_terminator c = false) body →
  match_here
    [ lazy_plus (λ c, negb (is_line_terminator c));
      lit Char.underscore; lit Char.star; lit Char.star ]
    (body ++ js "_**" ++ post)
  = Some (length body + 3).
Proof.
  intros Hne Hstar Hlt. rewrite match_here_cons. unfold counts, lazy_plus.
  cbn [cls qmin qmax qmode].
  set (k := run _ _).
  assert (Hk : length body ≤ k).
  { subst k. rewrite run_app_all; [lia|].
    eapply Forall_impl; [done|]. intros c Hc. simpl. by rewrite Hc. }
  assert (length body ≠ 0) by by destruct body.
  rewrite (seq_split 1 _ (length body)) by lia.
  apply try_counts_skip.
  - apply Forall_forall. intros j Hj%elem_of_seq.
    rewrite drop_app_le by lia.
    destruct (drop j body) as [|x xs] eqn:Hd.
    { apply (f_equal length) in Hd. rewrite length_drop in Hd. simpl in Hd. lia. }
    apply closing_not_inside. rewrite <-Hd. by apply Forall_drop.
  - rewrite drop_app_length. by vm_compute.
Qed.

Lemma match_here_emphasis body post :
  body ≠ [] →
  Forall (λ c, c ≠ Char.star) body →
  Forall (λ c, is_line_terminator c = false) body →
  match_here EMPHASIS (js "**_" ++ body ++ js "_**" ++ post)
  = Some (length body + 6).
Proof.
  intros Hne Hstar Hlt. unfold EMPHASIS.
  change (js "**_" ++ body ++ js "_**" ++ post)
    with (Char.star :: Char.star :: Char.underscore
          :: body ++ js "_**" ++ post).
  rewrite !match_here_lit_eq, !N.eqb_refl.
  rewrite match_here_emphasis_body by done. simpl. f_equal. lia.
Qed.

Lemma split_go_match r s rest cur :
  match_here r (s ++ rest) = Some (length s) → s ≠ [] →
  split_go r true (s ++ rest) cur 0
  = reverse cur :: s :: split_go r true rest [] 0.
Proof.
  intros Hm Hne. destruct s as [|c s]; [done|]. cbn [app split_go].
  cbn [app] in Hm. rewrite Hm. cbn [length]. f_equal.
  change (c :: s ++ rest) with ((c :: s) ++ rest).
  replace (S (length s)) with (length (c :: s)) by done.
  rewrite take_app_length. cbn [app]. f_equal.
  by rewrite split_go_skip, drop_app_length.
Qed.

(** X14. A text without a star is one plain child holding the text.
    An emphasis [**_body_**], with a body that is not empty and holds
    neither a star nor a line terminator, between a text and another
    that hold no star, is three children: the text before (no child
    when it is empty), the body as an emphasis with its markers
    stripped, and the text after. *)
Theorem renderInlineSegments_emphasis pre body post :
  Forall (λ c, c ≠ Char.star) pre →
  Forall (λ c, c ≠ Char.star) post →
  Forall (λ c, c ≠ Char.star) body →
  Forall (λ c, is_line_terminator c = false) body →
  body ≠ [] →
  renderInlineSegments (pre ++ js "**_" ++ body ++ js "_**" ++ post)
  = [ if pre is [] then None else Some (PlainText pre);
      Some (Emphasis body);
      if post is [] then None else Some (PlainText post) ]
  ∧ renderInlineSegments pre
    = [ if pre is [] then None else Some (PlainText pre) ].
Proof.
  intros Hpre Hpost Hbody Hlt Hne.
  assert (Hplain : ∀ s, Forall (λ c, c ≠ Char.star) s →
            (if s is [] then None
             else if startsWith s (js "**_") && endsWith s (js "_**")
                  then Some (Emphasis (slice_inner s 3 3))
                  else Some (PlainText s))
            = if s is [] then None else Some (PlainText s)).
  { intros s Hs. destruct s as [|c s]; [done|].
    change (js "**_") with (Char.star :: js "*_").
    by rewrite (startsWith_star_free (c :: s)). }
  assert (Hsplit : ∀ s, Forall (λ c, c ≠ Char.star) s →
            split_go EMPHASIS true s [] 0 = [s]).
  { intros s Hs. rewrite <-(app_nil_r s) at 1.
    rewrite split_go_star_free by done. simpl.
    by rewrite app_nil_r, reverse_involutive. }
  split.
  - unfold renderInlineSegments, String_split.
    set (marked := js "**_" ++ body ++ js "_**").
    assert (Hseg : split_go EMPHASIS true (pre ++ marked ++ post) [] 0
                   = [pre; marked; post]).
    { rewrite split_go_star_free by done. rewrite app_nil_r.
      rewrite (split_go_match EMPHASIS marked post).
      - by rewrite reverse_involutive, Hsplit.
      - subst marked. rewrite <-!app_assoc.
        rewrite match_here_emphasis by done. f_equal.
        rewrite !length_app. simpl. lia.
      - subst marked. done. }
    replace (pre ++ js "**_" ++ body ++ js "_**" ++ post)
      with (pre ++ marked ++ post) by (subst marked; by rewrite <-!app_assoc).
    destruct (pre ++ marked ++ post) as [|c t] eqn:Ht.
    { apply (f_equal length) in Ht. subst marked.
      rewrite !length_app in Ht. simpl in Ht. lia. }
    rewrite Hseg. cbn [fmap list_fmap].
    rewrite (Hplain pre), (Hplain post) by done. f_equal. f_equal.
    subst marked. rewrite startsWith_app.
    rewrite (app_assoc _ _ (js "_**")), endsWith_app. cbn [andb].
    unfold slice_inner. rewrite <-app_assoc, !length_app.
    change (drop 3 (js "**_" ++ body ++ js "_**")) with (body ++ js "_**").
    replace (length (js "**_") + (length body + length (js "_**")) - 3 - 3)
      with (length body) by (simpl; lia).
    rewrite take_app_length. by destruct body.
  - unfold renderInlineSegments, String_split.
    destruct pre as [|c t]; [by vm_compute|].
    rewrite Hsplit by done. cbn [fmap list_fmap].
    by rewrite (Hplain (c :: t)).
Qed.

Lemma renderInlineSegments_emphasis_witness :
  renderInlineSegments (js "**_bold_** text")
  = [ None; Some (Emphasis (js "bold")); Some (PlainText (js " text")) ].
Proof.
  destruct (renderInlineSegments_emphasis [] (js "bold") (js " text"))
    as [H _].
  - constructor.
  - by apply (bool_decide_unpack _); vm_compute.
  - by apply (bool_decide_unpack _); vm_compute.
  - by apply (bool_decide_unpack _); vm_compute.
  - discriminate.
  - exact H.
Defined.

(** ** [renderMessageContent] *)

Lemma blocks_of_entries buf lines :
  concat (block_entries <$> blocks_of buf lines)
  = (ItemEntry <$> (renderInlineSegments <$> buf)) ++ (line_entry <$> lines).
Proof.
  revert buf. induction lines as [|line rest IH]; intros buf; cbn [blocks_of].
  - unfold flushed. destruct buf; [done|]. simpl. by rewrite !app_nil_r.
  - rewrite (fmap_cons line_entry). unfold line_entry at 1.
    destruct (is_bullet line).
    + rewrite IH, !fmap_app. by rewrite <-app_assoc.
    + rewrite fmap_app, concat_app, fmap_cons. cbn [concat block_entries].
      rewrite IH. rewrite !fmap_nil, app_nil_l. unfold flushed.
      destruct buf; [done|]. cbn [fmap list_fmap concat block_entries].
      by rewrite !app_nil_r.
Qed.

Lemma blocks_of_grouped buf lines : well_grouped (blocks_of buf lines) = true.
Proof.
  revert buf. induction lines as [|line rest IH]; intros buf; cbn [blocks_of].
  - unfold flushed. by destruct buf.
  - destruct (is_bullet line); [apply IH|].
    unfold flushed. destruct buf as [|b buf]; simpl; apply IH.
Qed.

Lemma well_grouped_cons b bs :
  well_grouped (b :: bs) = true →
  well_grouped bs = true
  ∧ match b with
    | Paragraph _ => True
    | BulletList items =>
        items ≠ [] ∧ ∀ items' bs', bs ≠ BulletList items' :: bs'
    end.
Proof.
  cbn [well_grouped]. intros [Hb Hbs]%andb_true_iff. split; [done|].
  destruct b as [children|items]; [done|].
  apply andb_true_iff in Hb as [Hne Hnext]. split; [by destruct items|].
  intros items' bs' ->. done.
Qed.

(** Items in front of entries that begin with no item can be read off in
    one way only. *)
Lemma items_app_inj (xs ys : list (list (option Span))) (r r' : list Entry) :
  (∀ c t, r ≠ ItemEntry c :: t) → (∀ c t, r' ≠ ItemEntry c :: t) →
  (ItemEntry <$> xs) ++ r = (ItemEntry <$> ys) ++ r' →
  xs = ys ∧ r = r'.
Proof.
  intros Hr Hr'. revert ys.
  induction xs as [|x xs IH]; intros [|y ys] H; simpl in H.
  - done.
  - by apply Hr in H.
  - symmetry in H. by apply Hr' in H.
  - injection H as -> H. destruct (IH _ H) as [-> ->]. done.
Qed.

Lemma entries_head_no_item bs :
  (∀ items bs', bs ≠ BulletList items :: bs') →
  well_grouped bs = true →
  ∀ c t, concat (block_entries <$> bs) ≠ ItemEntry c :: t.
Proof.
  intros Hhead Hg c t. destruct bs as [|[children|items] bs]; [done|done|].
  by destruct (Hhead items bs).
Qed.

(** Well grouped blocks are determined by their entries. *)
Lemma well_grouped_inj bs bs' :
  well_grouped bs = true → well_grouped bs' = true →
  concat (block_entries <$> bs) = concat (block_entries <$> bs') →
  bs = bs'.
Proof.
  revert bs'. induction bs as [|b bs IH]; intros bs' Hg Hg' He.
  - destruct bs' as [|[children|items] bs']; [done|done|].
    apply well_grouped_cons in Hg' as (_ & Hne & _). by destruct items.
  - apply well_grouped_cons in Hg as [Hg Hb].
    destruct b as [children|items].
    + destruct bs' as [|[children'|items'] bs'].
      * done.
      * apply well_grouped_cons in Hg' as [Hg' _].
        injection He as -> He. f_equal. by apply IH.
      * apply well_grouped_cons in Hg' as (_ & Hne & _). by destruct items'.
    + destruct Hb as [Hne Hnext].
      destruct bs' as [|[children'|items'] bs'].
      * by destruct items.
      * by destruct items.
      * apply well_grouped_cons in Hg' as (Hg' & _ & Hnext').
        rewrite !fmap_cons in He. cbn [concat block_entries] in He.
        apply items_app_inj in He as [-> He];
          [|by apply entries_head_no_item..].
        f_equal. by apply IH.
Qed.

(** X15. The blocks keep every line, in order and in its kind, and group
    them well. No list block is empty and no two list blocks are
    neighbours. When the text has a line that is not blank, the
    paragraphs and list items, read block after block, are what the
    lines give one by one: a list item, made of the line without its
    bullet, for a bullet line, and a paragraph for any other line; and
    the blocks returned are the only blocks, grouped in that way, that
    read so. *)
Theorem renderMessageContent_keeps_lines text :
  well_grouped (renderMessageContent text) = true
  ∧ if message_lines text is []
    then renderMessageContent text = [Paragraph [Some (PlainText text)]]
    else concat (block_entries <$> renderMessageContent text)
         = line_entry <$> message_lines text
         ∧ ∀ blocks,
             well_grouped blocks = true →
             concat (block_entries <$> blocks)
             = line_entry <$> message_lines text →
             blocks = renderMessageContent text.
Proof.
  unfold renderMessageContent. cbv zeta.
  destruct (message_lines text) as [|l ls] eqn:Hl; [done|].
  rewrite format_lines_blocks.
  assert (He : concat (block_entries <$> blocks_of [] (l :: ls))
               = line_entry <$> l :: ls)
    by by rewrite blocks_of_entries.
  split_and!.
  - apply blocks_of_grouped.
  - done.
  - intros blocks Hg Hb. apply well_grouped_inj; [done| |congruence].
    apply blocks_of_grouped.
Qed.

Lemma split_go_Forall (P : N → Prop) r cap s cur k :
  Forall P s → Forall P cur → Forall (Forall P) (split_go r cap s cur k).
Proof.
  intros Hs. revert cur k. induction Hs as [|c s Hc Hs IH]; intros cur k Hcur.
  - repeat constructor. by apply Forall_reverse.
  - destruct k as [|k]; [|by apply IH]. cbn [split_go].
    destruct (match_here r (c :: s)) as [[|m]|].
    + apply Forall_app. split; [|apply IH; by repeat constructor].
      destruct cur; [constructor|]. constructor; [by apply Forall_reverse|].
      destruct cap; repeat constructor.
    + constructor; [by apply Forall_reverse|]. apply Forall_app. split.
      * destruct cap; [|constructor]. apply Forall_singleton.
        apply Forall_take. by constructor.
      * apply IH. constructor.
    + apply IH. by constructor.
Qed.

Lemma line_break_ws s m :
  match_here LINE_BREAK s = Some m → all_ws (take m s).
Proof.
  intros [_ (u & v & -> & Hu & _ & _ & a & e & -> & Ha & _ & _ & ->)]%match_here_sound.
  rewrite app_nil_r. apply Forall_app. split.
  - eapply Forall_impl; [exact Hu|]. intros c Hc. unfold opt in Hc.
    cbn [cls] in Hc. apply Is_true_true, N.eqb_eq in Hc. by subst.
  - eapply Forall_impl; [exact Ha|]. intros c Hc. unfold lit in Hc.
    cbn [cls] in Hc. apply Is_true_true, N.eqb_eq in Hc. by subst.
Qed.

Lemma filter_all_ws l : all_ws l → filter (λ c, is_ws c = false) l = [].
Proof.
  induction 1 as [|x l Hx _ IH]; [done|].
  rewrite filter_cons_False; [done|]. by rewrite Hx.
Qed.

(** What is not whitespace goes through a split at whitespace. *)
Lemma split_go_keeps r s cur k :
  (∀ s' m, match_here r s' = Some m → all_ws (take m s')) →
  all_ws (take k s) →
  filter (λ c, is_ws c = false) (concat (split_go r false s cur k))
  = filter (λ c, is_ws c = false) (reverse cur ++ s).
Proof.
  intros Hr. revert cur k. induction s as [|c s IH]; intros cur k Hk.
  - simpl. by rewrite app_nil_r.
  - destruct k as [|k].
    + cbn [split_go]. destruct (match_here r (c :: s)) as [[|m]|] eqn:Hm.
      * rewrite concat_app, filter_app, IH by constructor.
        rewrite (filter_app _ (reverse cur)), reverse_singleton.
        destruct cur as [|a cur]; [by rewrite reverse_nil|].
        cbn [concat]. by rewrite app_nil_r.
      * cbn [app concat]. rewrite filter_app, IH.
        2:{ apply Hr in Hm. cbn [take] in Hm.
            by apply Forall_cons in Hm as [_ ?]. }
        rewrite !filter_app. f_equal. cbn [reverse app].
        apply Hr in Hm. cbn [take] in Hm. apply Forall_cons in Hm as [Hc _].
        rewrite (filter_cons_False _ c); [done|]. by rewrite Hc.
      * rewrite IH by constructor. by rewrite reverse_cons, <-app_assoc.
    + cbn [split_go]. cbn [take] in Hk. apply Forall_cons in Hk as [Hc Hk].
      rewrite IH by done. rewrite !filter_app. f_equal.
      rewrite (filter_cons_False _ c); [done|]. by rewrite Hc.
Qed.

Lemma message_lines_nil text : message_lines text = [] ↔ all_ws text.
Proof.
  unfold message_lines. split.
  - intros H.
    assert (Hall : Forall all_ws (String_split text LINE_BREAK false)).
    { apply Forall_forall. intros piece Hp. apply trim_all_ws.
      destruct (trim piece) as [|c t] eqn:Ht; [done|]. exfalso.
      assert (Hin : c :: t ∈ filter (λ line : jsstring, 0 < length line)
                       (trim <$> String_split text LINE_BREAK false)).
      { apply list_elem_of_filter. split; [simpl; lia|].
        apply list_elem_of_fmap. by exists piece. }
      rewrite H in Hin. by apply elem_of_nil in Hin. }
    destruct text as [|c t]; [constructor|]. unfold String_split in Hall.
    assert (Hf : filter (λ c, is_ws c = false) (c :: t) = []).
    { pose proof (split_go_keeps LINE_BREAK (c :: t) [] 0 line_break_ws
                    (Forall_nil_2 _)) as Hk.
      rewrite reverse_nil, app_nil_l in Hk. rewrite <-Hk.
      by apply filter_all_ws, Forall_concat. }
    apply Forall_forall. intros x Hx. destruct (is_ws x) eqn:Hw; [done|].
    assert (x ∈ filter (λ c, is_ws c = false) (c :: t))
      by by apply list_elem_of_filter.
    rewrite Hf in H0. by apply elem_of_nil in H0.
  - intros H.
    assert (Hall : Forall all_ws (String_split text LINE_BREAK false)).
    { unfold String_split. destruct text as [|c t]; [by vm_compute; repeat constructor|].
      by apply split_go_Forall; [|constructor]. }
    induction Hall as [|piece l Hp _ IH]; [done|]. cbn [fmap list_fmap].
    apply trim_all_ws in Hp. rewrite Hp. rewrite filter_cons_False; [done|].
    simpl. lia.
Qed.

(** X16. The fallback paragraph is for the texts made of whitespace
    only, and for them alone: a text whose code units are all
    whitespace (the empty text too) gives one paragraph holding the
    text untouched, and a text with any other code unit has a line that
    is not blank and is rendered from its lines. *)
Theorem renderMessageContent_blank text :
  (message_lines text = [] ↔ all_ws text)
  ∧ (all_ws text →
     renderMessageContent text = [Paragraph [Some (PlainText text)]])
  ∧ (¬ all_ws text →
     renderMessageContent text = format_lines (message_lines text)
     ∧ message_lines text ≠ []).
Proof.
  split_and!.
  - apply message_lines_nil.
  - intros H%message_lines_nil. unfold renderMessageContent. by rewrite H.
  - intros H. unfold renderMessageContent. cbv zeta.
    destruct (message_lines text) eqn:Hl; [|done].
    by apply message_lines_nil in Hl.
Qed.

Lemma renderMessageContent_blank_witness :
  all_ws (js "  " ++ [Char.lf] ++ js " ")
  ∧ renderMessageContent (js "  " ++ [Char.lf] ++ js " ")
    = [Paragraph [Some (PlainText (js "  " ++ [Char.lf] ++ js " "))]].
Proof.
  assert (H : all_ws (js "  " ++ [Char.lf] ++ js " ")).
  { by apply (bool_decide_unpack _); vm_compute. }
  split; [exact H|].
  destruct (renderMessageContent_blank (js "  " ++ [Char.lf] ++ js " "))
    as (_ & Hblank & _).
  by apply Hblank.
Defined.

(** ** The mail link, read back *)

Lemma unhex_hex n : (n < 16)%N → unhex (hex_digit n) = n.
Proof.
  intros H. unfold unhex, hex_digit, is_digit, between.
  destruct (n <? 10)%N eqn:Hn; bool_to_prop.
  - replace ((48 <=? 48 + n) && (48 + n <=? 57))%N with true; [lia|].
    symmetry. bool_to_prop. lia.
  - replace ((48 <=? 55 + n) && (55 + n <=? 57))%N with false; [lia|].
    symmetry. bool_to_prop. lia.
Qed.

Lemma decode_encode_byte b rest :
  (b < 256)%N →
  decode_bytes (encode_byte b ++ rest) = b :: decode_bytes rest.
Proof.
  intros Hb. unfold encode_byte.
  destruct (b =? Char.space)%N eqn:Hsp.
  { apply N.eqb_eq in Hsp. by subst. }
  destruct (form_safe b) eqn:Hs.
  - cbn [app decode_bytes].
    assert (Hne : (b =? Char.plus)%N = false ∧ (b =? Char.percent)%N = false).
    { revert Hs. unfold form_safe, is_upper, is_lower, is_digit, between,
        Char.plus, Char.percent, Char.star, Char.minus, Char.dot,
        Char.underscore. intros Hs. bool_to_prop. lia. }
    destruct Hne as [-> ->]. done.
  - cbn [app decode_bytes]. change (Char.percent =? Char.plus)%N with false.
    change (Char.percent =? Char.percent)%N with true. cbv iota.
    rewrite !unhex_hex.
    + f_equal. pose proof (N.Div0.div_mod b 16). lia.
    + by apply N.mod_lt.
    + apply N.Div0.div_lt_upper_bound. lia.
Qed.

Lemma decode_encode bs :
  Forall (λ b, (b < 256)%N) bs →
  decode_bytes (concat (encode_byte <$> bs)) = bs.
Proof.
  induction 1 as [|b bs Hb _ IH]; [done|]. cbn [fmap list_fmap concat].
  by rewrite decode_encode_byte, IH.
Qed.

Lemma utf8_bytes_of_bound s :
  code_units s = true → Forall (λ b, (b < 256)%N) (utf8_bytes_of s).
Proof.
  intros Hs%code_units_Forall%scalar_values_bound. unfold utf8_bytes_of.
  apply Forall_concat, Forall_fmap. eapply Forall_impl; [exact Hs|].
  intros cp Hcp. by apply utf8_bytes.
Qed.

Lemma decode_urlencode s :
  code_units s = true → decode_bytes (urlencode s) = utf8_bytes_of s.
Proof. intros H. by apply decode_encode, utf8_bytes_of_bound. Qed.

Lemma utf8_bytes_of_ascii s :
  Forall (λ c, (c < 128)%N) s → utf8_bytes_of s = s.
Proof.
  unfold utf8_bytes_of. induction 1 as [|c s Hc _ IH]; [done|].
  cbn [scalar_values].
  replace (is_high_surrogate c) with false
    by (symmetry; unfold is_high_surrogate, between; bool_to_prop; lia).
  replace (is_low_surrogate c) with false
    by (symmetry; unfold is_low_surrogate, between; bool_to_prop; lia).
  cbn [fmap list_fmap concat]. rewrite IH. unfold utf8.
  apply N.ltb_lt in Hc. by rewrite Hc.
Qed.

Lemma ascii_code_units s : Forall (λ c, (c < 128)%N) s → code_units s = true.
Proof.
  intros H. apply code_units_Forall. eapply Forall_impl; [done|].
  intros c Hc. simpl in Hc. lia.
Qed.

Lemma join_Forall (P : N → Prop) sep (l : list jsstring) :
  Forall P sep → Forall (Forall P) l → Forall P (join sep l).
Proof. apply join_chars. Qed.

Lemma email_shape_no_comma x : email_shape x → Forall (λ c, c ≠ Char.comma) x.
Proof.
  intros H%email_shape_chars. eapply Forall_impl; [done|].
  intros c [Hc| ->]; [|done]. revert Hc. unfold_classes. unfold Char.comma.
  intros Hc. bool_to_prop. lia.
Qed.

(** X17. Percent-decoding what [URLSearchParams] writes for a value (a
    [+] read as a space, [%] and two digits as a byte) gives the UTF-8
    bytes of the value, for every string of 16-bit code units; for a
    value of code units below 128 it gives the value itself. *)
Theorem urlencode_decodes s :
  code_units s = true →
  decode_bytes (urlencode s) = utf8_bytes_of s
  ∧ (Forall (λ c, (c < 128)%N) s → decode_bytes (urlencode s) = s).
Proof.
  intros H. split; [by apply decode_urlencode|].
  intros Ha. by rewrite decode_urlencode, utf8_bytes_of_ascii.
Qed.

Lemma urlencode_decodes_witness :
  code_units (js "a b&c=d%") = true
  ∧ urlencode (js "a b&c=d%") = js "a+b%26c%3Dd%25"
  ∧ decode_bytes (urlencode (js "a b&c=d%")) = js "a b&c=d%".
Proof.
  assert (H : code_units (js "a b&c=d%") = true) by reflexivity.
  split_and!; [exact H|vm_compute; reflexivity|].
  apply (urlencode_decodes (js "a b&c=d%") H).
  by apply (bool_decide_unpack _); vm_compute.
Defined.

Lemma recipients_ascii es :
  Forall email_shape es → Forall (λ c, (c < 128)%N) (join [Char.comma] es).
Proof.
  intros H. apply join_Forall; [by repeat constructor|].
  eapply Forall_impl; [done|]. intros x. apply email_shape_ascii.
Qed.

Lemma link_fields_inj s b es s' b' es' :
  link_fields s b es = link_fields s' b' es' →
  urlencode s = urlencode s' ∧ urlencode b = urlencode b'
  ∧ ((es = [] ∧ es' = [])
     ∨ (es ≠ [] ∧ es' ≠ []
        ∧ urlencode (join [Char.comma] es) = urlencode (join [Char.comma] es'))).
Proof.
  unfold link_fields, query_field. cbn [app].
  intros [= Hs Hb Hto]. split_and!; [done..|].
  destruct es as [|e es], es' as [|e' es']; try done; [by left|right].
  injection Hto as Hto. by split_and!.
Qed.

(** X18. The link can be read back. For subjects and bodies of 16-bit
    code units and recipients of the email shape (which is what the
    harvest gives): if two links are the same text, then the recipient
    lists are the same list, and the subjects, and the bodies, have the
    same UTF-8 bytes. No address can run into its neighbour, since no
    address holds a comma. *)
Theorem gmailLink_injective s b es s' b' es' :
  code_units s = true → code_units b = true →
  code_units s' = true → code_units b' = true →
  Forall email_shape es → Forall email_shape es' →
  gmailLink s b es = gmailLink s' b' es' →
  utf8_bytes_of s = utf8_bytes_of s'
  ∧ utf8_bytes_of b = utf8_bytes_of b'
  ∧ es = es'.
Proof.
  intros Hs Hb Hs' Hb' He He' Hlink. unfold gmailLink in Hlink.
  apply app_inv_head in Hlink. rewrite !params_toString_fields in Hlink.
  apply (f_equal (split_char Char.amp)) in Hlink.
  rewrite !split_char_join in Hlink
    by (apply link_fields_no_amp || (unfold link_fields; done)).
  apply link_fields_inj in Hlink as (Hsu & Hbody & Hto). split_and!.
  - by rewrite <-!decode_urlencode, Hsu.
  - by rewrite <-!decode_urlencode, Hbody.
  - destruct Hto as [[-> ->]|(Hne & Hne' & Hto)]; [done|].
    apply (f_equal decode_bytes) in Hto.
    rewrite !decode_urlencode in Hto by by apply ascii_code_units, recipients_ascii.
    rewrite !utf8_bytes_of_ascii in Hto by by apply recipients_ascii.
    apply (f_equal (split_char Char.comma)) in Hto.
    rewrite !split_char_join in Hto; try done.
    + eapply Forall_impl; [exact He'|]. apply email_shape_no_comma.
    + eapply Forall_impl; [exact He|]. apply email_shape_no_comma.
Qed.

Lemma gmailLink_injective_witness :
  utf8_bytes_of (js "Intro call") = utf8_bytes_of (js "Intro call")
  ∧ utf8_bytes_of (js "Hi, there") = utf8_bytes_of (js "Hi, there")
  ∧ [js "a@x.com"; js "b@y.org"] = [js "a@x.com"; js "b@y.org"].
Proof.
  assert (He : Forall email_shape [js "a@x.com"; js "b@y.org"]).
  { apply Forall_forall. intros x Hx.
    apply (emails_in_shape (VStr (js "a@x.com b@y.org"))).
    revert x Hx. apply Forall_forall.
    by apply (bool_decide_unpack _); vm_compute. }
  apply (gmailLink_injective (js "Intro call") (js "Hi, there")
           [js "a@x.com"; js "b@y.org"]
           (js "Intro call") (js "Hi, there")
           [js "a@x.com"; js "b@y.org"]);
    [reflexivity..|exact He|exact He|reflexivity].
Defined.

Lemma founderEmails_shapes analysisData publicData :
  Forall email_shape (founderEmails analysisData publicData).
Proof.
  rewrite founderEmails_first_occurrences. apply Forall_forall. intros x Hx.
  eapply elem_of_sublist in Hx; [|apply first_occurrences_sublist].
  apply list_elem_of_In, in_flat_map in Hx as (v & _ & Hv).
  by apply (emails_in_shape v), list_elem_of_In.
Qed.

Lemma first_occurrences_nil l : first_occurrences l = [] ↔ l = [].
Proof. destruct l; [done|]. by split. Qed.

Lemma resolve_Normal analysisData :
  ∃ identity, resolve analysisData = Normal identity.
Proof.
  destruct (displayName_Normal analysisData) as (c & d & Hc & Hd).
  destruct Hd as (Hd & _). unfold resolve.
  rewrite Hc, productName_Normal, Hd. by eexists.
Qed.

(** X19. From the record to the link, without a condition on the record:
    the link is always built (no access throws); it carries a [to] field
    exactly when one of the six sources holds an address; the encoded
    recipients hold only unreserved code units, [+] and [%], whatever
    the record holds; and decoding them and splitting at the commas
    gives back the harvested addresses. *)
Theorem gmailLink_of_recipients String_toLowerCase JSON_parse analysisData :
  let emails :=
    founderEmails analysisData (publicData JSON_parse analysisData) in
  let to := urlencode (join [Char.comma] emails) in
  ∃ identity,
    resolve analysisData = Normal identity
    ∧ gmailLink_of String_toLowerCase JSON_parse analysisData
      = Normal
          (js "https://mail.google.com/mail/?"
           ++ join [Char.amp]
                (link_fields
                   (mailSubject
                      (combinedName String_toLowerCase
                         (resolved_company identity)
                         (resolved_product identity)
                         (resolved_display identity)))
                   (mailBody
                      (productLabel (resolved_product identity))
                      (fallbackCompany (resolved_company identity)
                         (resolved_product identity)
                         (resolved_display identity)))
                   emails))
    ∧ (emails = []
       ↔ discovered analysisData (publicData JSON_parse analysisData) = [])
    ∧ Forall (λ c, encoded_char c = true) to
    ∧ split_char Char.comma (decode_bytes to)
      = (if emails is [] then [[]] else emails).
Proof.
  intros emails to.
  destruct (resolve_Normal analysisData) as [identity Hid].
  pose proof (founderEmails_shapes analysisData
                (publicData JSON_parse analysisData)) as He.
  fold emails in He.
  assert (Ha : Forall (λ c, (c < 128)%N) (join [Char.comma] emails))
    by by apply recipients_ascii.
  exists identity. split_and!.
  - done.
  - unfold gmailLink_of. rewrite Hid.
    cbn [mbind completion_bind mret completion_ret].
    unfold gmailLink. by rewrite params_toString_fields.
  - unfold emails. rewrite founderEmails_first_occurrences.
    apply first_occurrences_nil.
  - by apply urlencode_chars, ascii_code_units.
  - unfold to.
    rewrite decode_urlencode, utf8_bytes_of_ascii
      by (done || by apply ascii_code_units).
    destruct emails as [|e es] eqn:E; [done|].
    apply split_char_join; [|done].
    eapply Forall_impl; [exact He|]. apply email_shape_no_comma.
Qed.
